(** * serial-prober: a verification development

    A shallow embedding of [src/serial-prober.js] (class [SerialProber]) and
    theorems about its open / probe / probeAll behaviour.

    The JavaScript source is callback driven.  The embedding keeps that shape:
    the fields of [this], the serial port objects created by
    [new SerialPort(...)], the pending timers, the promises and the closures
    registered as callbacks are explicit state, and every callback of the
    source is one state transformer.  The host (the serialport library, the
    timer queue, the caller) is a script of events. *)

From Stdlib Require Import Strings.Byte.
From Stdlib Require Import String Ascii ZArith List Lia.
From stdpp Require Import base list gmap strings.

Local Open Scope string_scope.
Local Open Scope list_scope.
Local Open Scope nat_scope.

(** ** Bytes, buffers and strings *)

Abbreviation byte := Byte.byte.

#[global] Instance byte_eq_decision : EqDecision byte := Byte.byte_eq_dec.

(** [Buffer.includes] and [String.prototype.includes]: a contiguous
    occurrence of the needle anywhere in the receiver. *)
Fixpoint list_startsWith {A} `{EqDecision A} (l pat : list A) {struct pat}
    : bool :=
  match pat, l with
  | [], _ => true
  | p :: pat', x :: l' => bool_decide (p = x) && list_startsWith l' pat'
  | _ :: _, [] => false
  end.

Fixpoint list_includes {A} `{EqDecision A} (l pat : list A) : bool :=
  list_startsWith l pat ||
  match l with
  | [] => false
  | _ :: l' => list_includes l' pat
  end.

(** [String.prototype.startsWith]. *)
Fixpoint startsWith (s pat : string) {struct pat} : bool :=
  match pat, s with
  | EmptyString, _ => true
  | String p pat', String c s' => bool_decide (p = c) && startsWith s' pat'
  | String _ _, EmptyString => false
  end.

Fixpoint string_drop (n : nat) (s : string) : string :=
  match n, s with
  | O, _ => s
  | S n', String _ s' => string_drop n' s'
  | S _, EmptyString => EmptyString
  end.

(** [String.prototype.replace] with a string pattern: only the first
    occurrence is replaced. *)
Fixpoint replace (s pat rep : string) : string :=
  if startsWith s pat then rep +:+ string_drop (String.length pat) s
  else match s with
       | EmptyString => EmptyString
       | String c s' => String c (replace s' pat rep)
       end.

(** [String.prototype.includes], used on [err.message]. *)
Definition includes (s pat : string) : bool :=
  list_includes (list_ascii_of_string s) (list_ascii_of_string pat).

(** ** Port descriptors and the probe specification *)

(** The values a descriptor field can hold, as far as [typeof] tells them
    apart. *)
Inductive jsval :=
| VStr (s : string)
| VNum (n : Z)
| VBool (b : bool)
| VUndefined
| VNull.

(** A descriptor returned by [SerialPort.list()]: [comName] is always a
    string there; the other own properties are kept as a map.  (An object
    without a string [comName], on which [port.comName.startsWith] would
    throw, is not a value of this type.) *)
Record Port := mkPort {
  comName : string;
  props : gmap string jsval
}.

(** [port.hasOwnProperty(key)] together with [port[key]]. *)
Definition port_get (port : Port) (key : string) : option jsval :=
  if bool_decide (key = "comName") then Some (VStr (comName port))
  else props port !! key.

(** The two statements at the head of the loop body of [probeAll] and at
    the head of [serialPortMatchesFilter]. *)
Definition normalizePath (p : string) : string :=
  if startsWith p "/dev/tty.usb" then replace p "/dev/tty" "/dev/cu" else p.

Definition normalizePort (port : Port) : Port :=
  mkPort (normalizePath (comName port)) (props port).

Definition MAX_OPEN_ATTEMPTS : nat := 5.

(** One filter object, as [Object.entries] lists it.  A pattern is a
    string or a RegExp. *)
Definition FilterGroup (pattern : Type) : Type := list (string * pattern).

(** [this.param]. *)
Record ProbeSpec (pattern : Type) := mkSpec {
  name : string;
  baudRate : Z;
  probeCmd : list byte;
  probeRsp : list byte;
  filter : list (FilterGroup pattern)
}.

Arguments mkSpec {pattern} _ _ _ _ _.
Arguments name {pattern} _.
Arguments baudRate {pattern} _.
Arguments probeCmd {pattern} _.
Arguments probeRsp {pattern} _.
Arguments filter {pattern} _.

(** ** Sample data

    A probe specification with two filter groups, patterns that are plain
    substrings, three descriptors and two host error messages. *)

Definition ex_match (str re : string) : bool := includes str re.

Definition ex_spec : ProbeSpec string :=
  mkSpec "zigbee" 115200 [x01] [x41; x42]
    [[("vendor", "FTDI")]; [("product", "CP210")]].

Definition ex_lock : string :=
  "Error: Resource temporarily unavailable Cannot lock port".

Definition ex_denied : string := "Error: Permission denied, cannot open".

Definition ex_port1 : Port :=
  mkPort "/dev/ttyS0" {[ "vendor" := VStr "Other" ]}.

Definition ex_port2 : Port :=
  mkPort "/dev/tty.usbABC" {[ "vendor" := VStr "FTDI" ]}.

Definition ex_port3 : Port :=
  mkPort "/dev/ttyUSB1"
    (<[ "product" := VStr "CP2104" ]> {[ "vendor" := VStr "Other" ]}).

Definition ex_fails4 : list (nat * string) :=
  [(5, ex_lock); (7, ex_lock); (0, ex_lock); (2, ex_lock)].


(** A probe specification whose response is empty and whose only filter
    object is keyed on the path. *)
Definition ex_spec_any : ProbeSpec string :=
  mkSpec "any" 9600 [x01] [] [[("comName", "cu.usb")]].


(** The pattern strings of the sample data are regular expressions, but
    for "(": [new RegExp("(")] throws. *)
Definition ex_re_error (re : string) : option string :=
  if bool_decide (re = "(") then
    Some "Invalid regular expression: /(/: Unterminated group"
  else None.

(** A probe specification whose second filter object holds that
    pattern. *)
Definition ex_spec_bad : ProbeSpec string :=
  mkSpec "zigbee" 115200 [x01] [x41; x42]
    [[("product", "CP210")]; [("vendor", "(")]].


Definition ex_spec_all : ProbeSpec string :=
  mkSpec "all" 9600 [x01] [x41] [[]].


Section SerialProber.

(** [re_match str re] stands for [str.match(re)] being truthy.  Patterns
    are taken without the sticky flag, so that matching does not depend on
    earlier matches. *)
Context {pattern : Type}.
Variable re_match : string -> pattern -> bool.

(** [re_error re] is the message of the SyntaxError that [str.match(re)]
    throws when [re] is a string that is not a regular expression; it is
    [None] for a RegExp and for a string that is one.  The exception does
    not depend on [str].  For such a pattern [re_match _ re] stands for
    nothing: the evaluation has thrown where it would be used. *)
Variable re_error : pattern -> option string.

Variable param : ProbeSpec pattern.

(** What a promise is rejected with: the [Error] object handed to the open
    callback (or thrown), or the plain string [probe] rejects with. *)
Inductive jserr :=
| ErrObj (message : string)
| ErrStr (msg : string).

(** The inner [for (const [key, re] of Object.entries(filter))] loop. *)
Fixpoint groupMatches (port : Port) (entries : FilterGroup pattern) : bool :=
  match entries with
  | [] => true
  | (key, re) :: rest =>
      match port_get port key with
      | None => false
      | Some (VStr str) =>
          if re_match str re then groupMatches port rest else false
      | Some _ => false
      end
  end.

(** The outer [for (const filter of this.param.filter)] loop. *)
Fixpoint anyGroupMatches (port : Port) (groups : list (FilterGroup pattern))
    : bool :=
  match groups with
  | [] => false
  | g :: gs => if groupMatches port g then true else anyGroupMatches port gs
  end.

(** [serialPortMatchesFilter(port)]: the descriptor is rewritten in place,
    so the rewritten descriptor is returned next to the verdict.  This is
    what the call returns when it returns; whether it throws instead is
    told by [filterThrows] below. *)
Definition serialPortMatchesFilter (port : Port) : bool * Port :=
  let port := normalizePort port in
  (anyGroupMatches port (filter param), port).

(** The exception that leaves the inner loop, if any: [port[key].match(re)]
    is reached, for a key that the descriptor holds as a string and after
    the keys before it have matched, with a pattern that throws. *)
Fixpoint groupThrows (port : Port) (entries : FilterGroup pattern)
    : option string :=
  match entries with
  | [] => None
  | (key, re) :: rest =>
      match port_get port key with
      | Some (VStr str) =>
          match re_error re with
          | Some msg => Some msg
          | None => if re_match str re then groupThrows port rest else None
          end
      | _ => None
      end
  end.

(** The exception that leaves the outer loop, if any: a filter object
    throws after the filter objects before it have failed to match. *)
Fixpoint anyGroupThrows (port : Port) (groups : list (FilterGroup pattern))
    : option string :=
  match groups with
  | [] => None
  | g :: gs =>
      match groupThrows port g with
      | Some msg => Some msg
      | None => if groupMatches port g then None else anyGroupThrows port gs
      end
  end.

(** The exception thrown by the call [serialPortMatchesFilter(port)], if
    it throws. *)
Definition filterThrows (port : Port) : option jserr :=
  option_map ErrObj (anyGroupThrows (normalizePort port) (filter param)).

(** ** The runtime state *)

(** The promise returned by [open]; it resolves to [this.serialPort] as it
    is read when the probe succeeds. *)
Inductive settle :=
| Pending
| Resolved (v : option nat)
| Rejected (e : jserr).

Inductive port_status := Opening | IsOpen | NotOpen.

(** An object made by [new SerialPort(path, options, callback)].  The
    callback is the arrow function of [tryToOpen]; [sp_session] is the
    [resolve]/[reject] pair it closes over, [sp_listeners] the ['data']
    listeners, as indices of probe closures. *)
Record SerialPortObj := mkSerialPort {
  sp_path : option string;
  sp_baud : Z;
  sp_status : port_status;
  sp_session : nat;
  sp_listeners : list nat
}.

Inductive timer_cb :=
| LockRetry (sid : nat)
| ProbeDeadline (pid : nat).

Record Timer := mkTimer {
  tm_id : nat;
  tm_due : nat;
  tm_cb : timer_cb
}.

(** The variables one call of [probe] closes over: the promise of [probe]
    (settled or not) with the [then]/[catch] chained on it by [tryToOpen],
    [timer] and [data]. *)
Record ProbeClosure := mkProbe {
  pc_session : nat;
  pc_timer : nat;
  pc_data : list byte;
  pc_settled : bool
}.

(** Calls into the host, and the settling of the promise of [open]. *)
Inductive effect :=
| ENewSerialPort (h : nat) (path : option string) (baud : Z)
| EWrite (h : nat) (bytes : list byte)
| EClosePort (h : nat)
| ESetTimeout (id : nat) (delay : nat)
| EClearTimeout (id : nat)
| EResolve (sid : nat) (v : option nat)
| EReject (sid : nat) (e : jserr).

(** The four fields of [this] that the source assigns, then the host:
    port objects, probe closures, promises of [open], pending timers, the
    clock in milliseconds, and the timestamped log of effects. *)
Record State := mkState {
  portName : option string;
  lockAttempt : nat;
  serialPort : option nat;
  lockTimer : option nat;
  ports : list SerialPortObj;
  probes : list ProbeClosure;
  sessions : list settle;
  timers : list Timer;
  nextTimer : nat;
  now : nat;
  trace : list (nat * effect)
}.

(** [new SerialProber(params)]. *)
Definition init : State :=
  mkState None 0 None None [] [] [] [] 0 0 [].

Definition set_portName (v : option string) (s : State) : State :=
  mkState v (lockAttempt s) (serialPort s) (lockTimer s) (ports s)
    (probes s) (sessions s) (timers s) (nextTimer s) (now s) (trace s).
Definition set_lockAttempt (v : nat) (s : State) : State :=
  mkState (portName s) v (serialPort s) (lockTimer s) (ports s)
    (probes s) (sessions s) (timers s) (nextTimer s) (now s) (trace s).
Definition set_serialPort (v : option nat) (s : State) : State :=
  mkState (portName s) (lockAttempt s) v (lockTimer s) (ports s)
    (probes s) (sessions s) (timers s) (nextTimer s) (now s) (trace s).
Definition set_lockTimer (v : option nat) (s : State) : State :=
  mkState (portName s) (lockAttempt s) (serialPort s) v (ports s)
    (probes s) (sessions s) (timers s) (nextTimer s) (now s) (trace s).
Definition set_ports (v : list SerialPortObj) (s : State) : State :=
  mkState (portName s) (lockAttempt s) (serialPort s) (lockTimer s) v
    (probes s) (sessions s) (timers s) (nextTimer s) (now s) (trace s).
Definition set_probes (v : list ProbeClosure) (s : State) : State :=
  mkState (portName s) (lockAttempt s) (serialPort s) (lockTimer s) (ports s)
    v (sessions s) (timers s) (nextTimer s) (now s) (trace s).
Definition set_sessions (v : list settle) (s : State) : State :=
  mkState (portName s) (lockAttempt s) (serialPort s) (lockTimer s) (ports s)
    (probes s) v (timers s) (nextTimer s) (now s) (trace s).
Definition set_timers (v : list Timer) (s : State) : State :=
  mkState (portName s) (lockAttempt s) (serialPort s) (lockTimer s) (ports s)
    (probes s) (sessions s) v (nextTimer s) (now s) (trace s).
Definition set_nextTimer (v : nat) (s : State) : State :=
  mkState (portName s) (lockAttempt s) (serialPort s) (lockTimer s) (ports s)
    (probes s) (sessions s) (timers s) v (now s) (trace s).
Definition set_now (v : nat) (s : State) : State :=
  mkState (portName s) (lockAttempt s) (serialPort s) (lockTimer s) (ports s)
    (probes s) (sessions s) (timers s) (nextTimer s) v (trace s).
Definition set_trace (v : list (nat * effect)) (s : State) : State :=
  mkState (portName s) (lockAttempt s) (serialPort s) (lockTimer s) (ports s)
    (probes s) (sessions s) (timers s) (nextTimer s) (now s) v.

Definition emit (e : effect) (s : State) : State :=
  set_trace (trace s ++ [(now s, e)]) s.

(** ** Host primitives *)

Definition setTimeout (cb : timer_cb) (delay : nat) (s : State) : nat * State :=
  let id := nextTimer s in
  (id, emit (ESetTimeout id delay)
         (set_nextTimer (S id)
            (set_timers (timers s ++ [mkTimer id (now s + delay) cb]) s))).

Definition timer_is (id : nat) (t : Timer) : bool := Nat.eqb (tm_id t) id.

Definition clearTimeout (id : nat) (s : State) : State :=
  emit (EClearTimeout id)
    (set_timers (List.filter (fun t => negb (timer_is id t)) (timers s)) s).

(** [serialPort.isOpen]. *)
Definition isOpen (h : nat) (s : State) : bool :=
  match ports s !! h with
  | Some p => match sp_status p with IsOpen => true | _ => false end
  | None => false
  end.

Definition set_status (st : port_status) (p : SerialPortObj) : SerialPortObj :=
  mkSerialPort (sp_path p) (sp_baud p) st (sp_session p) (sp_listeners p).

Definition add_listener (pid : nat) (p : SerialPortObj) : SerialPortObj :=
  mkSerialPort (sp_path p) (sp_baud p) (sp_status p) (sp_session p)
    (sp_listeners p ++ [pid]).

Definition update_port (h : nat) (f : SerialPortObj -> SerialPortObj)
    (s : State) : State :=
  set_ports (alter f h (ports s)) s.

(** ** The methods and callbacks of [SerialProber] *)

(** [close()]. *)
Definition close (s : State) : State :=
  match serialPort s with
  | Some h =>
      if isOpen h s then
        let s := emit (EClosePort h) (update_port h (set_status NotOpen) s) in
        set_portName None (set_serialPort None s)
      else s
  | None => s
  end.

(** [resolve] of the promise made in [open]: a settled promise stays as it
    is. *)
Definition resolve (sid : nat) (v : option nat) (s : State) : State :=
  match sessions s !! sid with
  | Some Pending =>
      emit (EResolve sid v) (set_sessions (<[sid := Resolved v]> (sessions s)) s)
  | _ => s
  end.

(** [reject] of the promise made in [open], followed by the [catch] of
    [open]: [this.close()] runs, then the error is rethrown to the
    caller. *)
Definition reject (sid : nat) (e : jserr) (s : State) : State :=
  match sessions s !! sid with
  | Some Pending =>
      emit (EReject sid e)
        (close (set_sessions (<[sid := Rejected e]> (sessions s)) s))
  | _ => s
  end.

Definition mark_settled (pc : ProbeClosure) : ProbeClosure :=
  mkProbe (pc_session pc) (pc_timer pc) (pc_data pc) true.

Definition set_data (d : list byte) (pc : ProbeClosure) : ProbeClosure :=
  mkProbe (pc_session pc) (pc_timer pc) d (pc_settled pc).

(** [resolve()] of the promise of [probe], with the [then] of [tryToOpen]:
    [resolve(this.serialPort)]. *)
Definition probe_resolve (pid : nat) (s : State) : State :=
  match probes s !! pid with
  | Some pc =>
      if pc_settled pc then s
      else resolve (pc_session pc) (serialPort s)
             (set_probes (alter mark_settled pid (probes s)) s)
  | None => s
  end.

(** [reject(msg)] of the promise of [probe], with the [catch] of
    [tryToOpen]: [reject(err)]. *)
Definition probe_reject (pid : nat) (e : jserr) (s : State) : State :=
  match probes s !! pid with
  | Some pc =>
      if pc_settled pc then s
      else reject (pc_session pc) e
             (set_probes (alter mark_settled pid (probes s)) s)
  | None => s
  end.

(** How a template literal prints [this.portName]. *)
Definition show_portName (p : option string) : string :=
  match p with
  | Some path => path
  | None => "null"
  end.

Definition timeout_msg (s : State) : string :=
  "SerialProber: timeout: " +:+ name param +:+
  " dongle not detected on " +:+ show_portName (portName s).

(** The callback of the [setTimeout] in [probe]. *)
Definition on_probe_timeout (pid : nat) (s : State) : State :=
  probe_reject pid (ErrStr (timeout_msg s)) s.

(** The ['data'] listener installed by [probe]. *)
Definition on_data (chunk : list byte) (pid : nat) (s : State) : State :=
  match probes s !! pid with
  | Some pc =>
      let data := pc_data pc ++ chunk in
      let s := set_probes (alter (set_data data) pid (probes s)) s in
      if list_includes data (probeRsp param) then
        probe_resolve pid (clearTimeout (pc_timer pc) s)
      else s
  | None => s
  end.

(** [probe()], called by the open callback of session [sid].  With
    [this.serialPort] null, [this.serialPort.on] throws inside the promise
    executor, which rejects the promise of [probe]. *)
Definition probe (sid : nat) (s : State) : State :=
  let pid := length (probes s) in
  let '(timer, s) := setTimeout (ProbeDeadline pid) 500 s in
  let s := set_probes (probes s ++ [mkProbe sid timer [] false]) s in
  match serialPort s with
  | Some h =>
      emit (EWrite h (probeCmd param)) (update_port h (add_listener pid) s)
  | None =>
      probe_reject pid (ErrObj "Cannot read property 'on' of null") s
  end.

(** [tryToOpen(resolve, reject)]; [sid] stands for the pair. *)
Definition tryToOpen (sid : nat) (s : State) : State :=
  let h := length (ports s) in
  let sp := mkSerialPort (portName s) (baudRate param) Opening sid [] in
  set_serialPort (Some h)
    (emit (ENewSerialPort h (portName s) (baudRate param))
       (set_ports (ports s ++ [sp]) s)).

(** The callback given to [new SerialPort] by [tryToOpen]. *)
Definition on_open (sid : nat) (err : option string) (s : State) : State :=
  match err with
  | Some message =>
      if includes message "Cannot lock port" then
        let s := set_lockAttempt (S (lockAttempt s)) s in
        if MAX_OPEN_ATTEMPTS <=? lockAttempt s then
          reject sid (ErrObj message) s
        else
          let '(id, s) := setTimeout (LockRetry sid) 1000 s in
          set_lockTimer (Some id) s
      else reject sid (ErrObj message) s
  | None => probe sid s
  end.

(** [open(portName)]: the index of the new promise and the state. *)
Definition open (path : string) (s : State) : nat * State :=
  let s := set_lockAttempt 0 (set_portName (Some path) s) in
  let sid := length (sessions s) in
  (sid, tryToOpen sid (set_sessions (sessions s ++ [Pending]) s)).

(** ** The host as a script of events *)

Inductive event :=
| CallOpen (path : string)
| CallClose
| OpenDone (h : nat) (err : option string)
| Data (h : nat) (chunk : list byte)
| Advance (dt : nat).

Definition run_timer (cb : timer_cb) (s : State) : State :=
  match cb with
  | LockRetry sid => tryToOpen sid s
  | ProbeDeadline pid => on_probe_timeout pid s
  end.

(** A timer fires at its due time, unless it was cleared meanwhile. *)
Definition fire (t : Timer) (s : State) : State :=
  if existsb (timer_is (tm_id t)) (timers s) then
    run_timer (tm_cb t)
      (set_now (tm_due t)
         (set_timers
            (List.filter (fun t' => negb (timer_is (tm_id t) t')) (timers s)) s))
  else s.

(** Timers run by due time, and in the order they were set when due
    together. *)
Fixpoint insert_by_due (t : Timer) (l : list Timer) : list Timer :=
  match l with
  | [] => [t]
  | t' :: l' =>
      if tm_due t <? tm_due t' then t :: l else t' :: insert_by_due t l'
  end.

Definition by_due (l : list Timer) : list Timer :=
  foldl (fun acc t => insert_by_due t acc) [] l.

Definition advance (dt : nat) (s : State) : State :=
  let target := now s + dt in
  let due := by_due (List.filter (fun t => tm_due t <=? target) (timers s)) in
  set_now target (foldl (fun s t => fire t s) s due).

Definition step (ev : event) (s : State) : State :=
  match ev with
  | CallOpen path => snd (open path s)
  | CallClose => close s
  | OpenDone h err =>
      match ports s !! h with
      | Some p =>
          match sp_status p with
          | Opening =>
              let st := match err with None => IsOpen | Some _ => NotOpen end in
              on_open (sp_session p) err (update_port h (set_status st) s)
          | _ => s
          end
      | None => s
      end
  | Data h chunk =>
      match ports s !! h with
      | Some p =>
          match sp_status p with
          | IsOpen => foldl (fun s pid => on_data chunk pid s) s (sp_listeners p)
          | _ => s
          end
      | None => s
      end
  | Advance dt => advance dt s
  end.

Definition run (evs : list event) (s : State) : State :=
  foldl (fun s ev => step ev s) s evs.

(** ** probeAll *)

(** One element of the array [probeAll] resolves to; [prober] is [this]. *)
Record ProbeResult := mkResult {
  pr_port : Port;
  pr_serialPort : option nat
}.

Definition settled (sid : nat) (s : State) : option (option nat + jserr) :=
  match sessions s !! sid with
  | Some (Resolved v) => Some (inl v)
  | Some (Rejected e) => Some (inr e)
  | _ => None
  end.

(** How a call of [probeAll] ends: the array, with the promise of [open]
    awaited for each candidate and what is left of the script; or the
    script ends while a promise is still awaited; or the rejection. *)
Inductive scan :=
| ScanDone (results : list ProbeResult) (opened : list (Port * nat))
    (s : State) (rest : list event)
| ScanHung (opened : list (Port * nat)) (s : State)
| ScanRejected (e : jserr).

(** [await this.open(...)]: the host runs until the promise is settled. *)
Fixpoint await (sid : nat) (evs : list event) (s : State)
    : option (option nat + jserr) * State * list event :=
  match settled sid s with
  | Some r => (Some r, s, evs)
  | None =>
      match evs with
      | [] => (None, s, [])
      | ev :: rest => await sid rest (step ev s)
      end
  end.

(** The [for (const port of ports)] loop.  The call of
    [serialPortMatchesFilter] is outside the [try]: when it throws,
    [probeAll] is rejected with the exception; the [catch] swallows only
    the rejection of [open]. *)
Fixpoint probeAll_loop (todo : list Port) (serialPorts : list ProbeResult)
    (opened : list (Port * nat)) (evs : list event) (s : State) : scan :=
  match todo with
  | [] => ScanDone serialPorts opened s evs
  | port :: todo' =>
      let port := normalizePort port in
      match filterThrows port with
      | Some e => ScanRejected e
      | None =>
          let '(ok, port) := serialPortMatchesFilter port in
          if ok then
            let '(sid, s) := open (comName port) s in
            let opened := opened ++ [(port, sid)] in
            match await sid evs s with
            | (Some (inl v), s, evs) =>
                probeAll_loop todo' (serialPorts ++ [mkResult port v]) opened
                  evs s
            | (Some (inr _), s, evs) =>
                probeAll_loop todo' serialPorts opened evs s
            | (None, s, _) => ScanHung opened s
            end
          else probeAll_loop todo' serialPorts opened evs s
      end
  end.

(** [probeAll()]; [listing] is what [await SerialPort.list()] gives. *)
Definition probeAll (listing : jserr + list Port) (evs : list event)
    (s : State) : scan :=
  match listing with
  | inr ports => probeAll_loop ports [] [] evs s
  | inl e => ScanRejected e
  end.

(** ** Host scripts and the states of one session

    The scripts below are the host's side of one [open]: answers to the
    open attempts, the passing of time, and inbound bytes.  The state
    shapes name the fields a session goes through. *)

(** The host answers the attempts on the port objects [h], [h+1], ... with
    errors [msg], each [lat] ms after the attempt, and then lets the
    1000 ms of the retry timer pass. *)
Fixpoint lock_script (h : nat) (fails : list (nat * string)) : list event :=
  match fails with
  | [] => []
  | (lat, msg) :: rest =>
      Advance lat :: OpenDone h (Some msg) :: Advance 1000 ::
      lock_script (S h) rest
  end.

(** What these answers make the source do, from time [t] on: set a timer
    of 1000 ms, and make the next port object when it fires. *)
Fixpoint lock_trace (path : string) (h tid t : nat)
    (fails : list (nat * string)) : list (nat * effect) :=
  match fails with
  | [] => []
  | (lat, _) :: rest =>
      (t + lat, ESetTimeout tid 1000) ::
      (t + lat + 1000, ENewSerialPort (S h) (Some path) (baudRate param)) ::
      lock_trace path (S h) (S tid) (t + lat + 1000) rest
  end.

Fixpoint lock_time (t : nat) (fails : list (nat * string)) : nat :=
  match fails with
  | [] => t
  | (lat, _) :: rest => lock_time (t + lat + 1000) rest
  end.

(** The port objects left behind by failed attempts. *)
Definition failed_port (path : string) (sid : nat) : SerialPortObj :=
  mkSerialPort (Some path) (baudRate param) NotOpen sid [].

(** The port objects and the value of [this.lockTimer] after these
    answers. *)
Fixpoint lock_ports (path : string) (sid : nat) (P : list SerialPortObj)
    (fails : list (nat * string)) : list SerialPortObj :=
  match fails with
  | [] => P
  | _ :: rest => lock_ports path sid (P ++ [failed_port path sid]) rest
  end.

Fixpoint lock_lockTimer (lt : option nat) (tid : nat)
    (fails : list (nat * string)) : option nat :=
  match fails with
  | [] => lt
  | _ :: rest => lock_lockTimer (Some tid) (S tid) rest
  end.

Definition is_lock_error (f : nat * string) : Prop :=
  includes (snd f) "Cannot lock port" = true.

(** The number of [new SerialPort] calls in a log, and the delays of its
    [setTimeout] calls. *)
Definition attempts (tr : list (nat * effect)) : nat :=
  length (List.filter
            (fun e => match snd e with ENewSerialPort _ _ _ => true | _ => false end)
            tr).



(** Inbound chunks on port object [h], each [dt] ms after the one
    before. *)
Fixpoint chunk_script (h : nat) (chunks : list (nat * list byte))
    : list event :=
  match chunks with
  | [] => []
  | (dt, chunk) :: rest => Advance dt :: Data h chunk :: chunk_script h rest
  end.

Definition elapsed (chunks : list (nat * list byte)) : nat :=
  foldr (fun c acc => fst c + acc) 0 chunks.

Definition received (chunks : list (nat * list byte)) : list byte :=
  concat (map snd chunks).

(** An open attempt of session [sid] is in flight on the last port
    object; no timer is pending. *)
Definition opening_state (path : string) (n : nat) (lt : option nat)
    (P : list SerialPortObj) (prs : list ProbeClosure) (ss : list settle)
    (nt t : nat) (tr : list (nat * effect)) (sid : nat) : State :=
  mkState (Some path) n (Some (length P)) lt
    (P ++ [mkSerialPort (Some path) (baudRate param) Opening sid []])
    prs ss [] nt t tr.

(** An open attempt of session [sid] has failed on the last port object
    at time [t0] because of the lock; the retry timer [nt] is pending. *)
Definition waiting_state (path : string) (n : nat)
    (P : list SerialPortObj) (prs : list ProbeClosure) (ss : list settle)
    (nt t0 t : nat) (tr : list (nat * effect)) (sid : nat) : State :=
  mkState (Some path) n (Some (length P)) (Some nt)
    (P ++ [failed_port path sid])
    prs ss [mkTimer nt (t0 + 1000) (LockRetry sid)] (S nt) t tr.

(** The probe of session [sid] runs on the last port object since time
    [t0], with [data] received so far. *)
Definition probing_state (path : string) (n : nat) (lt : option nat)
    (P : list SerialPortObj) (prs : list ProbeClosure) (ss : list settle)
    (tid t0 t : nat) (tr : list (nat * effect)) (sid : nat)
    (data : list byte) : State :=
  mkState (Some path) n (Some (length P)) lt
    (P ++ [mkSerialPort (Some path) (baudRate param) IsOpen sid [length prs]])
    (prs ++ [mkProbe sid tid data false]) ss
    [mkTimer tid (t0 + 500) (ProbeDeadline (length prs))] (S tid) t tr.

(** The probe has succeeded: the promise of [open] is resolved with the
    port object. *)
Definition resolved_state (path : string) (n : nat) (lt : option nat)
    (P : list SerialPortObj) (prs : list ProbeClosure) (ss : list settle)
    (tid t : nat) (tr : list (nat * effect)) (sid : nat)
    (data : list byte) : State :=
  mkState (Some path) n (Some (length P)) lt
    (P ++ [mkSerialPort (Some path) (baudRate param) IsOpen sid [length prs]])
    (prs ++ [mkProbe sid tid data true])
    (<[sid := Resolved (Some (length P))]> ss) [] (S tid) t tr.

(** The probe has timed out: the port object is closed, the promise of
    [open] rejected. *)
Definition timed_out_state (path : string) (n : nat) (lt : option nat)
    (P : list SerialPortObj) (prs : list ProbeClosure) (ss : list settle)
    (tid t : nat) (tr : list (nat * effect)) (sid : nat)
    (data : list byte) (e : jserr) : State :=
  mkState None n None lt
    (P ++ [mkSerialPort (Some path) (baudRate param) NotOpen sid [length prs]])
    (prs ++ [mkProbe sid tid data true])
    (<[sid := Rejected e]> ss) [] (S tid) t tr.

(** The open attempt has failed for good: no port object of the session
    is open, the promise of [open] is rejected. *)
Definition refused_state (path : string) (n : nat) (lt : option nat)
    (P : list SerialPortObj) (prs : list ProbeClosure) (ss : list settle)
    (nt t : nat) (tr : list (nat * effect)) (sid : nat) (e : jserr) : State :=
  mkState (Some path) n (Some (length P)) lt
    (P ++ [failed_port path sid])
    prs (<[sid := Rejected e]> ss) [] nt t tr.

(** The text of the rejection of [probe]. *)
Definition probe_timeout_text (path : string) : string :=
  "SerialProber: timeout: " +:+ name param +:+
  " dongle not detected on " +:+ path.


(** ** Vocabulary of the statements about [probeAll] and [open] *)

(** The descriptors [probeAll] hands to [open]: rewritten, then kept when
    some filter group matches. *)
Definition candidates (listed : list Port) : list Port :=
  List.filter (fun port => anyGroupMatches port (filter param))
    (map normalizePort listed).

(** The array element for an awaited [open], from how its promise was
    settled. *)
Definition outcome_of (s : State) (o : Port * nat) : option ProbeResult :=
  match settled (snd o) s with
  | Some (inl v) => Some (mkResult (fst o) v)
  | _ => None
  end.




(** ** Vocabulary of the further statements *)

(** The [clearTimeout] calls made by the ['data'] listener for chunks that
    arrive after the probe has succeeded. *)
Fixpoint clear_trace (tid t : nat) (chunks : list (nat * list byte))
    : list (nat * effect) :=
  match chunks with
  | [] => []
  | (dt, _) :: rest =>
      (t + dt, EClearTimeout tid) :: clear_trace tid (t + dt) rest
  end.

(** What the source can ask of the host at all: port objects at the
    configured baud rate, writes of the probe command, timers of 1000 or
    500 ms. *)
Definition effect_ok (e : effect) : Prop :=
  match e with
  | ENewSerialPort _ _ baud => baud = baudRate param
  | EWrite _ bytes => bytes = probeCmd param
  | ESetTimeout _ d => d = 1000 \/ d = 500
  | _ => True
  end.

Definition log_ok (tr : list (nat * effect)) : Prop :=
  Forall (fun x => effect_ok (snd x)) tr.

(** The log of [s'] is the log of [s] followed by such requests. *)
Definition log_ext (s s' : State) : Prop :=
  exists new, trace s' = trace s ++ new /\ log_ok new.

(** Time passes, the host stays silent. *)
Definition is_advance (ev : event) : Prop :=
  match ev with
  | Advance _ => True
  | _ => False
  end.

(** The probe of session [sid] was abandoned with [close()] at time [tc]:
    the port object is closed and the fields of [this] are cleared, but
    the deadline timer is still set. *)
Definition abandoned_probe_state (n : nat) (lt : option nat)
    (path : string) (P : list SerialPortObj) (prs : list ProbeClosure)
    (ss : list settle) (tid t0 t : nat) (tr : list (nat * effect))
    (sid : nat) (data : list byte) : State :=
  mkState None n None lt
    (P ++ [mkSerialPort (Some path) (baudRate param) NotOpen sid [length prs]])
    (prs ++ [mkProbe sid tid data false]) ss
    [mkTimer tid (t0 + 500) (ProbeDeadline (length prs))] (S tid) t tr.


(** The descriptors that [probeAll] does not pass over: rewritten, then
    kept when the filter accepts them or throws on them. *)
Definition considered (listed : list Port) : list Port :=
  List.filter
    (fun port =>
       match filterThrows port with
       | Some _ => true
       | None => anyGroupMatches port (filter param)
       end)
    (map normalizePort listed).

(** An entry of a filter object that the descriptor passes: the key is
    held as a string, and the pattern is a regular expression that the
    string matches. *)
Definition entry_matches (port : Port) (e : string * pattern) : Prop :=
  exists str, port_get port (fst e) = Some (VStr str) /\
              re_error (snd e) = None /\ re_match str (snd e) = true.

(** A filter object that is evaluated to the end of its turn without an
    exception and without matching. *)
Definition group_fails (port : Port) (g : FilterGroup pattern) : Prop :=
  groupThrows port g = None /\ groupMatches port g = false.

(** An event that comes from the host, not from the caller. *)
Definition host_event (ev : event) : Prop :=
  match ev with
  | CallOpen _ | CallClose => False
  | _ => True
  end.


(** The number of [write] calls in a log. *)
Definition writes (tr : list (nat * effect)) : nat :=
  length (List.filter
            (fun e => match snd e with EWrite _ _ => true | _ => false end)
            tr).


(** Port object [h] is open and is not the one in [this.serialPort]. *)
Definition kept_open (h : nat) (s : State) : Prop :=
  isOpen h s = true /\ serialPort s <> Some h.


(** Between two sessions of a scan: no timer is pending, no open attempt
    is in flight, and the ['data'] listeners still installed belong to
    probes that are settled, with timers older than any timer to come. *)
Definition no_opening (P : list SerialPortObj) : Prop :=
  Forall (fun p => sp_status p <> Opening) P.

Definition listeners_below (k : nat) (P : list SerialPortObj) : Prop :=
  Forall (fun p => Forall (fun pid => pid < k) (sp_listeners p)) P.

Definition good_probes (bound : nat) (prs : list ProbeClosure) : Prop :=
  Forall (fun pc => pc_settled pc = true /\ pc_timer pc < bound) prs.

Definition quiet (s : State) : Prop :=
  timers s = [] /\
  no_opening (ports s) /\
  listeners_below (length (probes s)) (ports s) /\
  good_probes (nextTimer s) (probes s).


(** The states one [open(path)] of a scan can be in while only the host
    acts.  [P0] are the port objects of the earlier sessions, [k0] the
    number of their probe closures; [k] attempts of this session have
    failed so far. *)
Inductive scan_session (path : string) (sid a0 w0 : nat)
    (P0 : list SerialPortObj) (k0 : nat) : State -> Prop :=
| scan_opening n lt k prs ss nt t tr :
    n < MAX_OPEN_ATTEMPTS -> ss !! sid = Some Pending ->
    length prs = k0 -> good_probes nt prs ->
    attempts tr = a0 + S n -> writes tr = w0 ->
    scan_session path sid a0 w0 P0 k0
      (opening_state path n lt (P0 ++ replicate k (failed_port path sid))
         prs ss nt t tr sid)
| scan_waiting n k prs ss nt t0 t tr :
    n < MAX_OPEN_ATTEMPTS -> ss !! sid = Some Pending ->
    length prs = k0 -> good_probes nt prs ->
    attempts tr = a0 + n -> writes tr = w0 ->
    scan_session path sid a0 w0 P0 k0
      (waiting_state path n (P0 ++ replicate k (failed_port path sid))
         prs ss nt t0 t tr sid)
| scan_probing n lt k prs ss tid t0 t tr data :
    n < MAX_OPEN_ATTEMPTS -> ss !! sid = Some Pending ->
    length prs = k0 -> good_probes tid prs ->
    attempts tr = a0 + S n -> writes tr = S w0 ->
    scan_session path sid a0 w0 P0 k0
      (probing_state path n lt (P0 ++ replicate k (failed_port path sid))
         prs ss tid t0 t tr sid data)
| scan_resolved n lt k prs ss tid t tr data :
    ss !! sid = Some Pending ->
    length prs = k0 -> good_probes tid prs ->
    list_includes data (probeRsp param) = true ->
    attempts tr <= a0 + MAX_OPEN_ATTEMPTS -> writes tr = S w0 ->
    scan_session path sid a0 w0 P0 k0
      (resolved_state path n lt (P0 ++ replicate k (failed_port path sid))
         prs ss tid t tr sid data)
| scan_timed_out n lt k prs ss tid t tr data e :
    ss !! sid = Some Pending ->
    length prs = k0 -> good_probes tid prs ->
    attempts tr <= a0 + MAX_OPEN_ATTEMPTS -> writes tr = S w0 ->
    scan_session path sid a0 w0 P0 k0
      (timed_out_state path n lt (P0 ++ replicate k (failed_port path sid))
         prs ss tid t tr sid data e)
| scan_refused n lt k prs ss nt t tr e :
    ss !! sid = Some Pending ->
    length prs = k0 -> good_probes nt prs ->
    attempts tr <= a0 + MAX_OPEN_ATTEMPTS -> writes tr = w0 ->
    scan_session path sid a0 w0 P0 k0
      (refused_state path n lt (P0 ++ replicate k (failed_port path sid))
         prs ss nt t tr sid e).


(** What the host does to one candidate of a scan.  In each case the
    first open attempts fail on the lock ([fails], as in [lock_script])
    and the last attempt is answered after [lat] ms.  [Responds]: the port
    opens, [chunks] arrive without the response, then [chunk] completes
    it, [dt] ms later.  [Refuses]: the last attempt fails with [msg].
    [Silent]: the port opens, [chunks] arrive without the response, and
    [d] ms later the deadline has passed. *)
Inductive answer :=
| Responds (fails : list (nat * string)) (lat : nat)
    (chunks : list (nat * list byte)) (dt : nat) (chunk : list byte)
| Refuses (fails : list (nat * string)) (lat : nat) (msg : string)
| Silent (fails : list (nat * string)) (lat : nat)
    (chunks : list (nat * list byte)) (d : nat).

Definition answer_fails (a : answer) : list (nat * string) :=
  match a with
  | Responds fails _ _ _ _ => fails
  | Refuses fails _ _ => fails
  | Silent fails _ _ _ => fails
  end.

(** The events of the host for a candidate whose first port object is
    [h]. *)
Definition answer_script (h : nat) (a : answer) : list event :=
  match a with
  | Responds fails lat chunks dt chunk =>
      lock_script h fails ++
      [Advance lat; OpenDone (h + length fails) None] ++
      chunk_script (h + length fails) chunks ++
      [Advance dt; Data (h + length fails) chunk]
  | Refuses fails lat msg =>
      lock_script h fails ++
      [Advance lat; OpenDone (h + length fails) (Some msg)]
  | Silent fails lat chunks d =>
      lock_script h fails ++
      [Advance lat; OpenDone (h + length fails) None] ++
      chunk_script (h + length fails) chunks ++ [Advance d]
  end.

(** The answer is what its name says: fewer than five lock failures
    first; then a response that is complete with the last chunk and not
    before, within the 500 ms; or an error that is not the fifth lock error
    unless four went before; or no response until the 500 ms are over. *)
Definition answer_ok (a : answer) : Prop :=
  Forall is_lock_error (answer_fails a) /\
  length (answer_fails a) < MAX_OPEN_ATTEMPTS /\
  match a with
  | Responds _ _ chunks dt chunk =>
      elapsed chunks + dt < 500 /\
      list_includes (received chunks) (probeRsp param) = false /\
      list_includes (received chunks ++ chunk) (probeRsp param) = true
  | Refuses fails _ msg =>
      includes msg "Cannot lock port" = true ->
      S (length fails) = MAX_OPEN_ATTEMPTS
  | Silent _ _ chunks d =>
      elapsed chunks < 500 /\ 500 <= elapsed chunks + d /\
      list_includes (received chunks) (probeRsp param) = false
  end.

(** How the promise of [open(path)] is settled by the answer. *)
Definition answer_outcome (path : string) (h : nat) (a : answer)
    : option nat + jserr :=
  match a with
  | Responds fails _ _ _ _ => inl (Some (h + length fails))
  | Refuses _ _ msg => inr (ErrObj msg)
  | Silent _ _ _ _ => inr (ErrStr (probe_timeout_text path))
  end.

(** The events of the host for the candidates of a scan, one answer
    after the other, and the array to expect: one element for each
    candidate that responds, holding the port object that opened. *)
Fixpoint scan_script (h : nat) (answers : list answer) : list event :=
  match answers with
  | [] => []
  | a :: rest =>
      answer_script h a ++ scan_script (h + S (length (answer_fails a))) rest
  end.

Fixpoint expected (h : nat) (cands : list Port) (answers : list answer)
    : list ProbeResult :=
  match cands, answers with
  | port :: cands', a :: answers' =>
      match a with
      | Responds fails _ _ _ _ => [mkResult port (Some (h + length fails))]
      | _ => []
      end ++ expected (h + S (length (answer_fails a))) cands' answers'
  | _, _ => []
  end.

(** The port object of an element of the array of [probeAll] is open. *)
Definition result_open (s : State) (r : ProbeResult) : Prop :=
  exists h, pr_serialPort r = Some h /\ isOpen h s = true.


(** * Properties *)

(** ** Substring search *)

Lemma list_startsWith_spec {A} `{EqDecision A} (l pat : list A) :
  list_startsWith l pat = true <-> exists l2, l = pat ++ l2.
Proof.
  revert l. induction pat as [|p pat IH]; intros l; simpl.
  - split; [intros _; by exists l | reflexivity].
  - destruct l as [|x l].
    + split; [done | intros [l2 Hl]; discriminate].
    + rewrite andb_true_iff, bool_decide_eq_true, IH. split.
      * intros [-> [l2 ->]]. by exists l2.
      * intros [l2 Hl]. injection Hl as -> ->. split; [done | by exists l2].
Qed.

Lemma list_includes_spec {A} `{EqDecision A} (l pat : list A) :
  list_includes l pat = true <-> exists l1 l2, l = l1 ++ pat ++ l2.
Proof.
  induction l as [|x l IH]; simpl.
  - rewrite orb_false_r, list_startsWith_spec. split.
    + intros [l2 Hl]. by exists [], l2.
    + intros [l1 [l2 Hl]]. destruct l1; [by exists l2 | discriminate].
  - rewrite orb_true_iff, list_startsWith_spec, IH. split.
    + intros [[l2 Hl] | [l1 [l2 Hl]]].
      * by exists [], l2.
      * exists (x :: l1), l2. by rewrite Hl.
    + intros [l1 [l2 Hl]]. destruct l1 as [|y l1].
      * left. by exists l2.
      * right. injection Hl as -> ->. by exists l1, l2.
Qed.

Lemma list_includes_app {A} `{EqDecision A} (l l' pat : list A) :
  list_includes l pat = true -> list_includes (l ++ l') pat = true.
Proof.
  rewrite !list_includes_spec. intros [l1 [l2 ->]].
  exists l1, (l2 ++ l'). by rewrite <- !app_assoc.
Qed.

Lemma startsWith_spec (s pat : string) :
  startsWith s pat = true <-> exists x, s = pat +:+ x.
Proof.
  revert s. induction pat as [|p pat IH]; intros s; simpl.
  - split; [intros _; by exists s | reflexivity].
  - destruct s as [|c s].
    + split; [done | intros [x Hx]; discriminate].
    + rewrite andb_true_iff, bool_decide_eq_true, IH. split.
      * intros [-> [x ->]]. by exists x.
      * intros [x Hx]. injection Hx as -> ->. split; [done | by exists x].
Qed.

(** ** Path normalization *)

Lemma normalizePath_tty_usb (x : string) :
  normalizePath ("/dev/tty.usb" +:+ x) = "/dev/cu.usb" +:+ x.
Proof. reflexivity. Qed.

Lemma normalizePath_other (p : string) :
  startsWith p "/dev/tty.usb" = false -> normalizePath p = p.
Proof. unfold normalizePath. by intros ->. Qed.

Lemma normalizePath_idem (p : string) :
  normalizePath (normalizePath p) = normalizePath p.
Proof.
  destruct (startsWith p "/dev/tty.usb") eqn:Hp.
  - apply startsWith_spec in Hp as [x ->].
    rewrite normalizePath_tty_usb. reflexivity.
  - by rewrite !(normalizePath_other p Hp).
Qed.

Lemma normalizePort_idem (port : Port) :
  normalizePort (normalizePort port) = normalizePort port.
Proof. unfold normalizePort. simpl. by rewrite normalizePath_idem. Qed.

(** ** The filter *)

Lemma groupMatches_spec (port : Port) (g : FilterGroup pattern) :
  groupMatches port g = true <->
  forall key re, In (key, re) g ->
    exists str, port_get port key = Some (VStr str) /\ re_match str re = true.
Proof.
  induction g as [|[key re] g IH]; simpl.
  - split; [by intros _ key re [] | done].
  - split.
    + intros Hm key' re' [Heq | Hin].
      * injection Heq as <- <-.
        destruct (port_get port key) as [[str| | | |]|]; try done.
        exists str. by destruct (re_match str re).
      * destruct (port_get port key) as [[str| | | |]|]; try done.
        destruct (re_match str re); [|done]. by apply IH.
    + intros Hall. destruct (Hall key re) as [str [-> ->]]; [by left|].
      apply IH. intros key' re' Hin. apply Hall. by right.
Qed.



Lemma serialPortMatchesFilter_normalized (port : Port) :
  serialPortMatchesFilter port =
  (anyGroupMatches (normalizePort port) (filter param), normalizePort port).
Proof. reflexivity. Qed.

Lemma filterThrows_normalized (port : Port) :
  filterThrows (normalizePort port) = filterThrows port.
Proof. unfold filterThrows. by rewrite normalizePort_idem. Qed.

(** One turn of the loop of [probeAll]. *)
Lemma probeAll_loop_cons port todo results opened evs s :
  probeAll_loop (port :: todo) results opened evs s =
  match filterThrows port with
  | Some e => ScanRejected e
  | None =>
      if anyGroupMatches (normalizePort port) (filter param) then
        let '(sid, s1) := open (comName (normalizePort port)) s in
        let opened := opened ++ [(normalizePort port, sid)] in
        match await sid evs s1 with
        | (Some (inl v), s2, evs2) =>
            probeAll_loop todo (results ++ [mkResult (normalizePort port) v])
              opened evs2 s2
        | (Some (inr _), s2, evs2) => probeAll_loop todo results opened evs2 s2
        | (None, s2, _) => ScanHung opened s2
        end
      else probeAll_loop todo results opened evs s
  end.
Proof.
  cbn [probeAll_loop]. rewrite filterThrows_normalized.
  destruct (filterThrows port); [done|].
  rewrite serialPortMatchesFilter_normalized, normalizePort_idem.
  by destruct (anyGroupMatches (normalizePort port) (filter param)).
Qed.


(** C8: a path that starts with /dev/tty.usb has its /dev/tty replaced by
    /dev/cu, any other path is kept; the filter is evaluated on the
    rewritten descriptor, and [probeAll] calls [open] with the rewritten
    path and reports the rewritten descriptor (unless the evaluation of
    the filter threw, which rejects [probeAll] before any [open]). *)
Theorem path_normalized_before_filter_and_open (port : Port) :
  (forall x, normalizePath ("/dev/tty.usb" +:+ x) = "/dev/cu.usb" +:+ x) /\
  (forall p, startsWith p "/dev/tty.usb" = false -> normalizePath p = p) /\
  serialPortMatchesFilter port =
    (anyGroupMatches (normalizePort port) (filter param),
     normalizePort port) /\
  (forall s, trace (snd (open (normalizePath (comName port)) s)) =
     trace s ++ [(now s, ENewSerialPort (length (ports s))
                           (Some (normalizePath (comName port)))
                           (baudRate param))]) /\
  (forall todo results opened evs s,
     fst (serialPortMatchesFilter port) = true ->
     probeAll_loop (port :: todo) results opened evs s =
     match filterThrows port with
     | Some e => ScanRejected e
     | None =>
         let '(sid, s1) := open (normalizePath (comName port)) s in
         let opened := opened ++ [(normalizePort port, sid)] in
         match await sid evs s1 with
         | (Some (inl v), s2, evs2) =>
             probeAll_loop todo (results ++ [mkResult (normalizePort port) v])
               opened evs2 s2
         | (Some (inr _), s2, evs2) =>
             probeAll_loop todo results opened evs2 s2
         | (None, s2, _) => ScanHung opened s2
         end
     end).
Proof.
  split; [exact normalizePath_tty_usb|].
  split; [exact normalizePath_other|].
  split; [reflexivity|].
  split; [reflexivity|].
  intros todo results opened evs s.
  rewrite serialPortMatchesFilter_normalized. cbn [fst]. intros Hyes.
  by rewrite probeAll_loop_cons, Hyes.
Qed.

(** ** close *)

(** C9: [close] closes the port object held in [this.serialPort] when it
    is open: the object is no longer open afterwards, the close is the one
    call logged, [this.serialPort] and [this.portName] are cleared and the
    other port objects are as they were.  With no open port object held
    [close] changes nothing; so calling it twice is calling it once. *)
Theorem close_idempotent (s : State) :
  close (close s) = close s /\
  (serialPort s = None -> close s = s) /\
  (forall h, serialPort s = Some h -> isOpen h s = false -> close s = s) /\
  (forall h, serialPort s = Some h -> isOpen h s = true ->
     isOpen h (close s) = false /\
     trace (close s) = trace s ++ [(now s, EClosePort h)] /\
     serialPort (close s) = None /\
     portName (close s) = None /\
     forall h', h' <> h -> ports (close s) !! h' = ports s !! h').
Proof.
  split; [|split; [|split]]; cycle 3.
  { intros h Hsp Hopen. unfold close. rewrite Hsp, Hopen.
    split; [|split; [done|split; [done|split; [done|]]]].
    - unfold isOpen in *. cbn. rewrite list_lookup_alter_eq.
      by destruct (ports s !! h).
    - intros h' Hne. cbn. by rewrite list_lookup_alter_ne. }
  - destruct (serialPort s) as [h|] eqn:Hsp.
    + destruct (isOpen h s) eqn:Hopen.
      * assert (Hc : close s =
                     set_portName None
                       (set_serialPort None
                          (emit (EClosePort h)
                             (update_port h (set_status NotOpen) s))))
          by (unfold close; by rewrite Hsp, Hopen).
        rewrite Hc. reflexivity.
      * unfold close. by rewrite Hsp, Hopen, Hsp, Hopen.
    + unfold close. by rewrite Hsp, Hsp.
  - intros Hsp. unfold close. by rewrite Hsp.
  - intros h Hsp Hopen. unfold close. by rewrite Hsp, Hopen.
Qed.


(** ** One session, step by step *)

Lemma open_shape (path : string) (s : State) :
  timers s = [] ->
  open path s =
  (length (sessions s),
   opening_state path 0 (lockTimer s) (ports s) (probes s)
     (sessions s ++ [Pending]) (nextTimer s) (now s)
     (trace s ++ [(now s, ENewSerialPort (length (ports s)) (Some path)
                            (baudRate param))])
     (length (sessions s))).
Proof. destruct s; simpl; intros ->; reflexivity. Qed.

Lemma lookup_snoc {A} (l : list A) (x : A) : (l ++ [x]) !! length l = Some x.
Proof. by rewrite lookup_app_r, Nat.sub_diag. Qed.

Lemma alter_snoc {A} (f : A -> A) (l : list A) (x : A) :
  alter f (length l) (l ++ [x]) = l ++ [f x].
Proof. induction l as [|y l IH]; simpl; [done | f_equal; exact IH]. Qed.

Local Arguments Nat.leb : simpl never.
Local Arguments Nat.ltb : simpl never.
Local Arguments Nat.eqb : simpl never.

Lemma advance_opening path n lt P prs ss nt t tr sid dt :
  step (Advance dt) (opening_state path n lt P prs ss nt t tr sid) =
  opening_state path n lt P prs ss nt (t + dt) tr sid.
Proof. reflexivity. Qed.

Ltac state_unfold :=
  cbv [emit set_portName set_lockAttempt set_serialPort set_lockTimer
       set_ports set_probes set_sessions set_timers set_nextTimer set_now
       set_trace update_port set_status add_listener mark_settled set_data
       setTimeout clearTimeout timer_is
       portName lockAttempt serialPort lockTimer ports probes sessions
       timers nextTimer now trace
       sp_path sp_baud sp_status sp_session sp_listeners
       pc_session pc_timer pc_data pc_settled tm_id tm_due tm_cb].

Ltac session_simpl :=
  repeat (progress
            (state_unfold; cbn;
             rewrite ?lookup_snoc, ?alter_snoc, ?Nat.eqb_refl)).

Lemma open_done_lock path n lt P prs ss nt t tr sid msg :
  includes msg "Cannot lock port" = true ->
  S n < MAX_OPEN_ATTEMPTS ->
  step (OpenDone (length P) (Some msg))
    (opening_state path n lt P prs ss nt t tr sid) =
  waiting_state path (S n) P prs ss nt t t
    (tr ++ [(t, ESetTimeout nt 1000)]) sid.
Proof.
  intros Hmsg Hn. unfold opening_state, step. cbn [ports].
  rewrite lookup_snoc. cbn. rewrite Hmsg.
  rewrite (proj2 (Nat.leb_gt _ _) Hn). by session_simpl.
Qed.

Lemma open_done_lock_last path n lt P prs ss nt t tr sid msg :
  includes msg "Cannot lock port" = true ->
  MAX_OPEN_ATTEMPTS <= S n ->
  ss !! sid = Some Pending ->
  step (OpenDone (length P) (Some msg))
    (opening_state path n lt P prs ss nt t tr sid) =
  refused_state path (S n) lt P prs ss nt t
    (tr ++ [(t, EReject sid (ErrObj msg))]) sid (ErrObj msg).
Proof.
  intros Hmsg Hn Hsid. unfold opening_state, step. cbn [ports].
  rewrite lookup_snoc. cbn. rewrite Hmsg.
  rewrite (proj2 (Nat.leb_le _ _) Hn). unfold reject. session_simpl.
  rewrite Hsid. unfold close, isOpen. by session_simpl.
Qed.

Lemma open_done_error path n lt P prs ss nt t tr sid msg :
  includes msg "Cannot lock port" = false ->
  ss !! sid = Some Pending ->
  step (OpenDone (length P) (Some msg))
    (opening_state path n lt P prs ss nt t tr sid) =
  refused_state path n lt P prs ss nt t
    (tr ++ [(t, EReject sid (ErrObj msg))]) sid (ErrObj msg).
Proof.
  intros Hmsg Hsid. unfold opening_state, step. cbn [ports].
  rewrite lookup_snoc. cbn. rewrite Hmsg. unfold reject. session_simpl.
  rewrite Hsid. unfold close, isOpen. by session_simpl.
Qed.

Lemma open_done_ok path n lt P prs ss nt t tr sid :
  step (OpenDone (length P) None)
    (opening_state path n lt P prs ss nt t tr sid) =
  probing_state path n lt P prs ss nt t t
    (tr ++ [(t, ESetTimeout nt 500); (t, EWrite (length P) (probeCmd param))])
    sid [].
Proof.
  unfold opening_state, step. cbn [ports].
  rewrite lookup_snoc. session_simpl. by rewrite <- app_assoc.
Qed.

Lemma advance_waiting_idle path n P prs ss nt t0 t tr sid dt :
  t + dt < t0 + 1000 ->
  step (Advance dt) (waiting_state path n P prs ss nt t0 t tr sid) =
  waiting_state path n P prs ss nt t0 (t + dt) tr sid.
Proof.
  intros Hdt. unfold waiting_state, step, advance. cbn.
  by rewrite (proj2 (Nat.leb_gt _ _) Hdt).
Qed.

Lemma advance_waiting_fire path n P prs ss nt t0 t tr sid dt :
  t0 + 1000 <= t + dt ->
  step (Advance dt) (waiting_state path n P prs ss nt t0 t tr sid) =
  opening_state path n (Some nt) (P ++ [failed_port path sid]) prs ss
    (S nt) (t + dt)
    (tr ++ [(t0 + 1000,
             ENewSerialPort (length (P ++ [failed_port path sid]))
               (Some path) (baudRate param))])
    sid.
Proof.
  intros Hdt. unfold waiting_state, step, advance. cbn.
  rewrite (proj2 (Nat.leb_le _ _) Hdt). unfold fire. by session_simpl.
Qed.

Lemma close_waiting path n P prs ss nt t0 t tr sid :
  close (waiting_state path n P prs ss nt t0 t tr sid) =
  waiting_state path n P prs ss nt t0 t tr sid.
Proof. unfold close, isOpen, waiting_state. by session_simpl. Qed.

Lemma advance_probing_idle path n lt P prs ss tid t0 t tr sid data dt :
  t + dt < t0 + 500 ->
  step (Advance dt) (probing_state path n lt P prs ss tid t0 t tr sid data) =
  probing_state path n lt P prs ss tid t0 (t + dt) tr sid data.
Proof.
  intros Hdt. unfold probing_state, step, advance. cbn.
  by rewrite (proj2 (Nat.leb_gt _ _) Hdt).
Qed.

Lemma data_no_match path n lt P prs ss tid t0 t tr sid data chunk :
  list_includes (data ++ chunk) (probeRsp param) = false ->
  step (Data (length P) chunk)
    (probing_state path n lt P prs ss tid t0 t tr sid data) =
  probing_state path n lt P prs ss tid t0 t tr sid (data ++ chunk).
Proof.
  intros Hno. unfold probing_state, step. cbn [ports].
  rewrite lookup_snoc. cbn. unfold on_data. session_simpl.
  rewrite Hno. by session_simpl.
Qed.

Lemma data_match path n lt P prs ss tid t0 t tr sid data chunk :
  list_includes (data ++ chunk) (probeRsp param) = true ->
  ss !! sid = Some Pending ->
  step (Data (length P) chunk)
    (probing_state path n lt P prs ss tid t0 t tr sid data) =
  resolved_state path n lt P prs ss tid t
    (tr ++ [(t, EClearTimeout tid); (t, EResolve sid (Some (length P)))])
    sid (data ++ chunk).
Proof.
  intros Hyes Hsid. unfold probing_state, step. cbn [ports].
  rewrite lookup_snoc. cbn. unfold on_data. session_simpl.
  rewrite Hyes. unfold probe_resolve, clearTimeout. session_simpl.
  unfold resolve. session_simpl. rewrite Hsid. session_simpl.
  by rewrite <- app_assoc.
Qed.

Lemma deadline_fires path n lt P prs ss tid t0 t tr sid data dt :
  t0 + 500 <= t + dt ->
  ss !! sid = Some Pending ->
  step (Advance dt) (probing_state path n lt P prs ss tid t0 t tr sid data) =
  timed_out_state path n lt P prs ss tid (t + dt)
    (tr ++ [(t0 + 500, EClosePort (length P));
            (t0 + 500, EReject sid (ErrStr (probe_timeout_text path)))])
    sid data (ErrStr (probe_timeout_text path)).
Proof.
  intros Hdt Hsid. unfold probing_state, step, advance. cbn.
  rewrite (proj2 (Nat.leb_le _ _) Hdt). unfold fire. session_simpl.
  unfold on_probe_timeout, probe_reject. session_simpl.
  unfold reject. session_simpl. rewrite Hsid.
  unfold close, isOpen. session_simpl.
  by rewrite <- app_assoc.
Qed.



(** ** A settled promise stays settled *)

Definition settled_le (s s' : State) : Prop :=
  forall sid r, settled sid s = Some r -> settled sid s' = Some r.

Lemma settled_le_refl s : settled_le s s.
Proof. by intros sid r. Qed.

Lemma settled_le_trans s1 s2 s3 :
  settled_le s1 s2 -> settled_le s2 s3 -> settled_le s1 s3.
Proof. intros H12 H23 sid r Hr. by apply H23, H12. Qed.

Lemma settled_le_same s s' : sessions s' = sessions s -> settled_le s s'.
Proof. intros Hs sid r. unfold settled. by rewrite Hs. Qed.

Lemma settled_le_foldl {A} (f : State -> A -> State) (l : list A) s :
  (forall s x, settled_le s (f s x)) -> settled_le s (foldl f s l).
Proof.
  intros Hf. revert s. induction l as [|x l IH]; intros s; simpl.
  - apply settled_le_refl.
  - eapply settled_le_trans; [apply Hf | apply IH].
Qed.

Lemma close_sessions s : sessions (close s) = sessions s.
Proof.
  unfold close. destruct (serialPort s) as [h|]; [|done].
  by destruct (isOpen h s).
Qed.

Lemma settled_le_insert s sid x s' :
  sessions s !! sid = Some Pending ->
  sessions s' = <[sid := x]> (sessions s) ->
  settled_le s s'.
Proof.
  intros Hp Hs sid' r. unfold settled. rewrite Hs.
  destruct (decide (sid = sid')) as [<-|Hne].
  - by rewrite Hp.
  - by rewrite list_lookup_insert_ne.
Qed.

Lemma settled_le_snoc s x s' :
  sessions s' = sessions s ++ [x] -> settled_le s s'.
Proof.
  intros Hs sid r. unfold settled. rewrite Hs.
  destruct (sessions s !! sid) as [st|] eqn:Hst; [|done].
  by rewrite (lookup_app_l_Some _ _ _ _ Hst).
Qed.

Lemma resolve_le sid v s : settled_le s (resolve sid v s).
Proof.
  unfold resolve. destruct (sessions s !! sid) as [[| |]|] eqn:Hs;
    try apply settled_le_refl.
  by eapply settled_le_insert.
Qed.

Lemma reject_le sid e s : settled_le s (reject sid e s).
Proof.
  unfold reject. destruct (sessions s !! sid) as [[| |]|] eqn:Hs;
    try apply settled_le_refl.
  eapply settled_le_insert; [exact Hs|].
  cbn. by rewrite close_sessions.
Qed.

Lemma probe_resolve_le pid s : settled_le s (probe_resolve pid s).
Proof.
  unfold probe_resolve. destruct (probes s !! pid) as [pc|];
    [|apply settled_le_refl].
  destruct (pc_settled pc); [apply settled_le_refl|].
  eapply settled_le_trans; [|apply resolve_le]. by apply settled_le_same.
Qed.

Lemma probe_reject_le pid e s : settled_le s (probe_reject pid e s).
Proof.
  unfold probe_reject. destruct (probes s !! pid) as [pc|];
    [|apply settled_le_refl].
  destruct (pc_settled pc); [apply settled_le_refl|].
  eapply settled_le_trans; [|apply reject_le]. by apply settled_le_same.
Qed.

Lemma on_data_le chunk pid s : settled_le s (on_data chunk pid s).
Proof.
  unfold on_data. destruct (probes s !! pid) as [pc|];
    [|apply settled_le_refl].
  destruct (list_includes _ _); [|by apply settled_le_same].
  eapply settled_le_trans; [|apply probe_resolve_le]. by apply settled_le_same.
Qed.

Lemma tryToOpen_le sid s : settled_le s (tryToOpen sid s).
Proof. by apply settled_le_same. Qed.

Lemma probe_le sid s : settled_le s (probe sid s).
Proof.
  unfold probe. cbn. destruct (serialPort s) as [h|].
  - by apply settled_le_same.
  - eapply settled_le_trans; [|apply probe_reject_le]. by apply settled_le_same.
Qed.

Lemma on_open_le sid err s : settled_le s (on_open sid err s).
Proof.
  unfold on_open. destruct err as [msg|]; [|apply probe_le].
  destruct (includes msg _); [|apply reject_le].
  destruct (_ <=? _).
  - eapply settled_le_trans; [|apply reject_le]. by apply settled_le_same.
  - by apply settled_le_same.
Qed.

Lemma open_le path s : settled_le s (snd (open path s)).
Proof.
  unfold open. cbn [snd].
  eapply settled_le_trans; [|apply tryToOpen_le].
  by eapply settled_le_snoc.
Qed.

Lemma fire_le t s : settled_le s (fire t s).
Proof.
  unfold fire. destruct (existsb _ _); [|apply settled_le_refl].
  eapply settled_le_trans; [|destruct (tm_cb t) as [sid|pid]; cbn [run_timer];
                              [apply tryToOpen_le | apply probe_reject_le]].
  by apply settled_le_same.
Qed.

Lemma step_le ev s : settled_le s (step ev s).
Proof.
  destruct ev as [path| |h err|h chunk|dt]; cbn [step].
  - apply open_le.
  - by apply settled_le_same, close_sessions.
  - destruct (ports s !! h) as [p|]; [|apply settled_le_refl].
    destruct (sp_status p); try apply settled_le_refl.
    eapply settled_le_trans; [|apply on_open_le]. by apply settled_le_same.
  - destruct (ports s !! h) as [p|]; [|apply settled_le_refl].
    destruct (sp_status p); try apply settled_le_refl.
    apply settled_le_foldl. intros. apply on_data_le.
  - unfold advance. eapply settled_le_trans; [|by apply settled_le_same].
    apply settled_le_foldl. intros. apply fire_le.
Qed.

Lemma run_le evs s : settled_le s (run evs s).
Proof. apply settled_le_foldl. intros. apply step_le. Qed.

Lemma run_app evs1 evs2 s : run (evs1 ++ evs2) s = run evs2 (run evs1 s).
Proof. apply foldl_app. Qed.

(** ** The lock-retry phase *)

Lemma run_cons ev evs s : run (ev :: evs) s = run evs (step ev s).
Proof. reflexivity. Qed.

Lemma run_nil s : run [] s = s.
Proof. reflexivity. Qed.

Lemma lock_ports_length path sid P fails :
  length (lock_ports path sid P fails) = length P + length fails.
Proof.
  revert P. induction fails as [|f fails IH]; intros P; simpl; [lia|].
  rewrite IH, length_app. simpl. lia.
Qed.


Lemma lock_phase fails : forall path n lt P prs ss nt t tr sid,
  Forall is_lock_error fails ->
  n + length fails < MAX_OPEN_ATTEMPTS ->
  run (lock_script (length P) fails)
    (opening_state path n lt P prs ss nt t tr sid) =
  opening_state path (n + length fails) (lock_lockTimer lt nt fails)
    (lock_ports path sid P fails) prs ss (nt + length fails)
    (lock_time t fails) (tr ++ lock_trace path (length P) nt t fails) sid.
Proof.
  induction fails as [|[lat msg] fails IH];
    intros path n lt P prs ss nt t tr sid Hlock Hn.
  - simpl. by rewrite !Nat.add_0_r, app_nil_r.
  - apply Forall_cons in Hlock as [Hmsg Hlock]. simpl in Hn.
    cbn [lock_script]. rewrite !run_cons.
    rewrite advance_opening, (open_done_lock _ _ _ _ _ _ _ _ _ _ _ Hmsg)
      by lia.
    rewrite advance_waiting_fire by lia.
    replace (S (length P)) with (length (P ++ [failed_port path sid]))
      by (rewrite length_app; simpl; lia).
    rewrite IH by (done || lia).
    cbn [lock_ports lock_lockTimer lock_time lock_trace length].
    rewrite <- !app_assoc. cbn [app].
    replace (S (length P)) with (length (P ++ [failed_port path sid]))
      by (rewrite length_app; simpl; lia).
    by rewrite (Nat.add_succ_r n), (Nat.add_succ_r nt).
Qed.



(** ** The probe phase *)

Lemma settled_probing path n lt P prs ss tid t0 t tr sid data :
  ss !! sid = Some Pending ->
  settled sid (probing_state path n lt P prs ss tid t0 t tr sid data) = None.
Proof. intros Hsid. unfold settled. cbn. by rewrite Hsid. Qed.

Lemma settled_resolved path n lt P prs ss tid t tr sid data :
  ss !! sid = Some Pending ->
  settled sid (resolved_state path n lt P prs ss tid t tr sid data) =
  Some (inl (Some (length P))).
Proof.
  intros Hsid. unfold settled. cbn.
  by rewrite list_lookup_insert_eq by (by eapply lookup_lt_Some).
Qed.

Lemma settled_timed_out path n lt P prs ss tid t tr sid data e :
  ss !! sid = Some Pending ->
  settled sid (timed_out_state path n lt P prs ss tid t tr sid data e) =
  Some (inr e).
Proof.
  intros Hsid. unfold settled. cbn.
  by rewrite list_lookup_insert_eq by (by eapply lookup_lt_Some).
Qed.

Lemma settled_refused path n lt P prs ss nt t tr sid e :
  ss !! sid = Some Pending ->
  settled sid (refused_state path n lt P prs ss nt t tr sid e) = Some (inr e).
Proof.
  intros Hsid. unfold settled. cbn.
  by rewrite list_lookup_insert_eq by (by eapply lookup_lt_Some).
Qed.




Lemma received_cons dt c chunks :
  received ((dt, c) :: chunks) = c ++ received chunks.
Proof. reflexivity. Qed.

Lemma elapsed_cons dt c chunks :
  elapsed ((dt, c) :: chunks) = dt + elapsed chunks.
Proof. reflexivity. Qed.

Lemma received_app c1 c2 : received (c1 ++ c2) = received c1 ++ received c2.
Proof. unfold received. by rewrite map_app, concat_app. Qed.

Lemma elapsed_app c1 c2 : elapsed (c1 ++ c2) = elapsed c1 + elapsed c2.
Proof.
  induction c1 as [|[dt c] c1 IH]; [done|].
  change (dt + elapsed (c1 ++ c2) = dt + elapsed c1 + elapsed c2).
  rewrite IH. lia.
Qed.

Lemma chunk_script_app h c1 c2 :
  chunk_script h (c1 ++ c2) = chunk_script h c1 ++ chunk_script h c2.
Proof.
  induction c1 as [|[dt c] c1 IH]; [done|]. cbn. by rewrite IH.
Qed.

(** As long as the response has not shown up, the probe keeps waiting and
    accumulating. *)
Lemma probe_chunks_silent chunks : forall path n lt P prs ss tid t0 t tr sid data,
  t + elapsed chunks < t0 + 500 ->
  list_includes (data ++ received chunks) (probeRsp param) = false ->
  run (chunk_script (length P) chunks)
    (probing_state path n lt P prs ss tid t0 t tr sid data) =
  probing_state path n lt P prs ss tid t0 (t + elapsed chunks) tr sid
    (data ++ received chunks).
Proof.
  induction chunks as [|[dt c] chunks IH];
    intros path n lt P prs ss tid t0 t tr sid data Ht Hno.
  - cbn. by rewrite Nat.add_0_r, app_nil_r.
  - rewrite elapsed_cons in Ht. rewrite received_cons, app_assoc in Hno.
    cbn [chunk_script]. rewrite !run_cons.
    rewrite advance_probing_idle by lia.
    rewrite data_no_match.
    + rewrite IH by (done || lia). rewrite received_cons, app_assoc.
      by rewrite elapsed_cons, Nat.add_assoc.
    + destruct (list_includes (data ++ c) _) eqn:Hc; [|done].
      by rewrite (list_includes_app _ (received chunks) _ Hc) in Hno.
Qed.



(** ** One call of [open] on a quiet instance *)

Lemma call_open path s0 :
  timers s0 = [] ->
  step (CallOpen path) s0 =
  opening_state path 0 (lockTimer s0) (ports s0) (probes s0)
    (sessions s0 ++ [Pending]) (nextTimer s0) (now s0)
    (trace s0 ++ [(now s0, ENewSerialPort (length (ports s0)) (Some path)
                             (baudRate param))])
    (length (sessions s0)).
Proof. intros Ht. cbn [step]. by rewrite open_shape. Qed.

(** The log of a session up to its last open attempt. *)
Lemma session_lock_phase path s0 fails :
  timers s0 = [] ->
  Forall is_lock_error fails ->
  length fails < MAX_OPEN_ATTEMPTS ->
  run (CallOpen path :: lock_script (length (ports s0)) fails) s0 =
  opening_state path (length fails)
    (lock_lockTimer (lockTimer s0) (nextTimer s0) fails)
    (lock_ports path (length (sessions s0)) (ports s0) fails)
    (probes s0) (sessions s0 ++ [Pending])
    (nextTimer s0 + length fails) (lock_time (now s0) fails)
    (trace s0 ++
     (now s0, ENewSerialPort (length (ports s0)) (Some path) (baudRate param))
     :: lock_trace path (length (ports s0)) (nextTimer s0) (now s0) fails)
    (length (sessions s0)).
Proof.
  intros Ht Hlock Hn. rewrite run_cons, call_open by done.
  rewrite lock_phase by done. cbn [Nat.add].
  by rewrite <- app_assoc.
Qed.


Lemma session_probe_start path s0 fails lat :
  timers s0 = [] ->
  Forall is_lock_error fails ->
  length fails < MAX_OPEN_ATTEMPTS ->
  run (CallOpen path :: lock_script (length (ports s0)) fails ++
       [Advance lat; OpenDone (length (ports s0) + length fails) None]) s0 =
  probing_state path (length fails)
    (lock_lockTimer (lockTimer s0) (nextTimer s0) fails)
    (lock_ports path (length (sessions s0)) (ports s0) fails)
    (probes s0) (sessions s0 ++ [Pending])
    (nextTimer s0 + length fails)
    (lock_time (now s0) fails + lat) (lock_time (now s0) fails + lat)
    (trace s0 ++
     ((now s0, ENewSerialPort (length (ports s0)) (Some path) (baudRate param))
      :: lock_trace path (length (ports s0)) (nextTimer s0) (now s0) fails) ++
     [(lock_time (now s0) fails + lat,
       ESetTimeout (nextTimer s0 + length fails) 500);
      (lock_time (now s0) fails + lat,
       EWrite (length (ports s0) + length fails) (probeCmd param))])
    (length (sessions s0)) [].
Proof.
  intros Ht Hlock Hn.
  rewrite app_comm_cons, run_app, session_lock_phase by done.
  rewrite <- (lock_ports_length path (length (sessions s0))).
  rewrite !run_cons, run_nil, advance_opening, open_done_ok.
  by rewrite <- !app_assoc.
Qed.

Lemma session_refusal path s0 fails lat msg :
  timers s0 = [] ->
  Forall is_lock_error fails ->
  length fails < MAX_OPEN_ATTEMPTS ->
  (if includes msg "Cannot lock port"
   then S (length fails) = MAX_OPEN_ATTEMPTS else True) ->
  run (CallOpen path :: lock_script (length (ports s0)) fails ++
       [Advance lat; OpenDone (length (ports s0) + length fails) (Some msg)])
    s0 =
  refused_state path
    (if includes msg "Cannot lock port" then S (length fails)
     else length fails)
    (lock_lockTimer (lockTimer s0) (nextTimer s0) fails)
    (lock_ports path (length (sessions s0)) (ports s0) fails)
    (probes s0) (sessions s0 ++ [Pending])
    (nextTimer s0 + length fails) (lock_time (now s0) fails + lat)
    (trace s0 ++
     ((now s0, ENewSerialPort (length (ports s0)) (Some path) (baudRate param))
      :: lock_trace path (length (ports s0)) (nextTimer s0) (now s0) fails) ++
     [(lock_time (now s0) fails + lat,
       EReject (length (sessions s0)) (ErrObj msg))])
    (length (sessions s0)) (ErrObj msg).
Proof.
  intros Ht Hlock Hn Hlast.
  rewrite app_comm_cons, run_app, session_lock_phase by done.
  rewrite <- (lock_ports_length path (length (sessions s0))).
  rewrite !run_cons, run_nil, advance_opening.
  destruct (includes msg "Cannot lock port") eqn:Hmsg.
  - rewrite open_done_lock_last; [|done|lia|apply lookup_snoc].
    by rewrite <- !app_assoc.
  - rewrite open_done_error; [|done|apply lookup_snoc].
    by rewrite <- !app_assoc.
Qed.

(** ** The probe *)



(** ** open: lock retries and failures *)



Lemma attempts_app tr1 tr2 : attempts (tr1 ++ tr2) = attempts tr1 + attempts tr2.
Proof. unfold attempts. by rewrite List.filter_app, length_app. Qed.





(** C7, evaluated where the source departs from it.  A session whose first
    open attempt failed on the lock is abandoned with [close()]: the retry
    timer stored in [this.lockTimer] is still pending, and when it fires a
    second port object is made for the abandoned session.  Likewise
    [close()] during the probe leaves the deadline timer pending, and it
    fires later. *)
Theorem close_leaves_timers_pending (path : string) :
  let lock := "Error: Resource temporarily unavailable Cannot lock port" in
  let s := run [CallOpen path; OpenDone 0 (Some lock); CallClose] init in
  let s' := run [CallOpen path; OpenDone 0 None; CallClose] init in
  (lockTimer s = Some 0 /\
   timers s = [mkTimer 0 1000 (LockRetry 0)] /\
   attempts (trace s) = 1 /\
   attempts (trace (step (Advance 1000) s)) = 2) /\
  (isOpen 0 s' = false /\
   timers s' = [mkTimer 0 500 (ProbeDeadline 0)] /\
   settled 0 s' = None /\
   exists e, settled 0 (step (Advance 500) s') = Some (inr e)).
Proof.
  cbn zeta. split.
  - repeat split; vm_compute; reflexivity.
  - split; [vm_compute; reflexivity|]. split; [vm_compute; reflexivity|].
    split; [vm_compute; reflexivity|].
    eexists. vm_compute. reflexivity.
Qed.

Lemma append_cancel_l (a b c : string) : a +:+ b = a +:+ c -> b = c.
Proof.
  induction a as [|x a IH]; cbn; [done|].
  intros H. injection H as H. by apply IH.
Qed.

Lemma probe_timeout_text_inj (a b : string) :
  probe_timeout_text a = probe_timeout_text b -> a = b.
Proof.
  unfold probe_timeout_text. intros H. by do 3 apply append_cancel_l in H.
Qed.

(** C5, evaluated where the source departs from it.  A probe on [p] is
    given up with [close()] after 100 ms and [open(q)] is called at once;
    the port opens and the probe of [q] starts, with its deadline at
    600 ms.  No byte ever arrives.  The deadline timer of the probe that
    was given up is still pending: at 500 ms it rejects the first promise,
    and the [catch] of the first [open] closes the port object of the
    second session and clears [this.portName].  At its own deadline the
    second probe is rejected with a text that names the port as null, not
    by its path. *)
Theorem stale_deadline_misnames_port (p q : string) :
  let s := run [CallOpen p; OpenDone 0 None; Advance 100; CallClose;
                CallOpen q; OpenDone 1 None] init in
  let s1 := step (Advance 400) s in
  let s2 := step (Advance 100) s1 in
  (serialPort s = Some 1 /\ portName s = Some q /\ isOpen 1 s = true /\
   settled 1 s = None /\
   timers s = [mkTimer 0 500 (ProbeDeadline 0);
               mkTimer 1 600 (ProbeDeadline 1)]) /\
  (settled 0 s1 = Some (inr (ErrStr (probe_timeout_text q))) /\
   isOpen 1 s1 = false /\ portName s1 = None /\ settled 1 s1 = None) /\
  (now s2 = 600 /\
   settled 1 s2 = Some (inr (ErrStr (probe_timeout_text "null"))) /\
   (q <> "null" ->
    settled 1 s2 <> Some (inr (ErrStr (probe_timeout_text q))))).
Proof.
  cbn zeta.
  assert (H2 : settled 1
                 (step (Advance 100)
                    (step (Advance 400)
                       (run [CallOpen p; OpenDone 0 None; Advance 100;
                             CallClose; CallOpen q; OpenDone 1 None] init)))
               = Some (inr (ErrStr (probe_timeout_text "null"))))
    by (vm_compute; reflexivity).
  split; [|split].
  - repeat split; vm_compute; reflexivity.
  - repeat split; vm_compute; reflexivity.
  - split; [vm_compute; reflexivity|]. split; [exact H2|].
    intros Hq. rewrite H2. intros Heq. apply Hq. symmetry.
    apply probe_timeout_text_inj. congruence.
Qed.

(** C6, evaluated where the source departs from it.  The first attempt of
    [open(p)] fails on the lock; the caller gives up with [close()] after
    900 ms and calls [open(q)].  The retry timer of the first call is
    still pending: at 1000 ms it makes a further port object, which
    replaces the one of the second call in [this.serialPort].  The port
    object of the second call then opens, its probe times out, and the
    [catch] of [open] closes nothing, [this.serialPort] not being the open
    port object: the second call is rejected while its port object is
    still open. *)
Theorem stale_retry_leaves_port_open (p q : string) :
  let lock := "Error: Resource temporarily unavailable Cannot lock port" in
  let s := run [CallOpen p; OpenDone 0 (Some lock); Advance 900; CallClose;
                CallOpen q; Advance 100; OpenDone 1 None] init in
  let s' := step (Advance 500) s in
  let e := ErrStr (probe_timeout_text q) in
  (map sp_session (ports s) = [0; 1; 0] /\ serialPort s = Some 2 /\
   isOpen 1 s = true /\ settled 1 s = None) /\
  settled 1 s' = Some (inr e) /\
  isOpen 1 s' = true /\
  trace s' = trace s ++ [(1500, EReject 1 e)].
Proof.
  cbn zeta. split; [|split; [|split]].
  - repeat split; vm_compute; reflexivity.
  - vm_compute; reflexivity.
  - vm_compute; reflexivity.
  - vm_compute; reflexivity.
Qed.

(** C10, evaluated where the source departs from it.  The first attempt of
    [open(p)] fails on the lock; the caller gives up with [close()] and
    calls [open(q)], which starts from a counter of zero.  The retry timer
    of the first call is still pending, its attempts go on next to those
    of the second call, and all of them count on the one counter: the
    second call is rejected on the lock after three attempts of its
    own. *)
Theorem stale_retry_spends_lock_budget (p q : string) :
  let lock := "Error: Resource temporarily unavailable Cannot lock port" in
  let s := run [CallOpen p; OpenDone 0 (Some lock); CallClose; CallOpen q]
             init in
  let s' := run [OpenDone 1 (Some lock); Advance 1000;
                 OpenDone 2 (Some lock); OpenDone 3 (Some lock);
                 Advance 1000;
                 OpenDone 4 (Some lock); OpenDone 5 (Some lock)] s in
  (lockAttempt s = 0 /\ settled 1 s = None /\
   timers s = [mkTimer 0 1000 (LockRetry 0)]) /\
  map sp_session (ports s') = [0; 1; 0; 1; 0; 1] /\
  lockAttempt s' = MAX_OPEN_ATTEMPTS /\
  settled 1 s' = Some (inr (ErrObj lock)) /\
  length (List.filter (fun x => Nat.eqb (sp_session x) 1) (ports s')) = 3.
Proof.
  cbn zeta. split; [|split; [|split; [|split]]].
  - repeat split; vm_compute; reflexivity.
  - vm_compute; reflexivity.
  - vm_compute; reflexivity.
  - vm_compute; reflexivity.
  - vm_compute; reflexivity.
Qed.

(** ** probeAll *)

Lemma await_spec sid evs s :
  settled_le s (await sid evs s).1.2 /\
  match (await sid evs s).1.1 with
  | Some r => settled sid (await sid evs s).1.2 = Some r
  | None => settled sid (await sid evs s).1.2 = None
  end.
Proof.
  revert s. induction evs as [|ev evs IH]; intros s; cbn [await].
  - destruct (settled sid s) as [r|] eqn:Hr; cbn.
    + by split; [apply settled_le_refl|].
    + by split; [apply settled_le_refl|].
  - destruct (settled sid s) as [r|] eqn:Hr; cbn.
    + by split; [apply settled_le_refl|].
    + destruct (IH (step ev s)) as [Hle Hres]. split; [|exact Hres].
      eapply settled_le_trans; [apply step_le | exact Hle].
Qed.

(** While the promise is pending the events of the host are consumed one
    by one. *)
Lemma await_pending sid evs1 : forall evs2 s,
  settled sid (run evs1 s) = None ->
  await sid (evs1 ++ evs2) s = await sid evs2 (run evs1 s).
Proof.
  induction evs1 as [|ev evs1 IH]; intros evs2 s Hp; [done|].
  cbn [app await]. rewrite run_cons in Hp.
  destruct (settled sid s) as [r|] eqn:Hr.
  - pose proof (run_le (ev :: evs1) s sid r Hr) as Hr'.
    rewrite run_cons in Hr'. congruence.
  - rewrite run_cons. by apply IH.
Qed.

(** The event that settles the promise ends the wait, and the events after
    it are left for what follows. *)
Lemma await_settles sid evs1 ev evs2 s r :
  settled sid (run evs1 s) = None ->
  settled sid (run (evs1 ++ [ev]) s) = Some r ->
  await sid (evs1 ++ ev :: evs2) s = (Some r, run (evs1 ++ [ev]) s, evs2).
Proof.
  intros Hp Hr. rewrite await_pending by done.
  rewrite run_app, run_cons, run_nil in *.
  cbn [await]. rewrite Hp.
  destruct evs2; cbn [await]; by rewrite Hr.
Qed.

Lemma candidates_cons_match port listed :
  anyGroupMatches (normalizePort port) (filter param) = true ->
  candidates (port :: listed) = normalizePort port :: candidates listed.
Proof. intros Hm. unfold candidates. cbn. by rewrite Hm. Qed.

Lemma candidates_cons_skip port listed :
  anyGroupMatches (normalizePort port) (filter param) = false ->
  candidates (port :: listed) = candidates listed.
Proof. intros Hm. unfold candidates. cbn. by rewrite Hm. Qed.

Lemma outcome_of_le s s' o r :
  settled_le s s' -> settled (snd o) s = Some r ->
  outcome_of s' o = match r with
                    | inl v => Some (mkResult (fst o) v)
                    | inr _ => None
                    end.
Proof.
  intros Hle Hr. unfold outcome_of. rewrite (Hle _ _ Hr). by destruct r.
Qed.

Lemma omap_outcome_cons s' o new :
  omap (outcome_of s') (o :: new) =
  match outcome_of s' o with
  | Some r => r :: omap (outcome_of s') new
  | None => omap (outcome_of s') new
  end.
Proof. reflexivity. Qed.

(** When the loop returns. *)
Lemma probeAll_loop_spec todo :
  forall results opened evs s results' opened' s' rest,
  probeAll_loop todo results opened evs s = ScanDone results' opened' s' rest ->
  settled_le s s' /\
  exists new,
    opened' = opened ++ new /\
    map fst new = candidates todo /\
    results' = results ++ omap (outcome_of s') new /\
    Forall (fun o => is_Some (settled (snd o) s')) new.
Proof.
  induction todo as [|port todo IH];
    intros results opened evs s results' opened' s' rest Hscan.
  - cbn in Hscan. injection Hscan as <- <- <- <-.
    split; [apply settled_le_refl|]. exists [].
    by rewrite !app_nil_r.
  - rewrite probeAll_loop_cons in Hscan.
    destruct (filterThrows port) as [e|]; [discriminate|].
    destruct (anyGroupMatches (normalizePort port) (filter param)) eqn:Hm.
    + destruct (open (comName (normalizePort port)) s) as [sid s1] eqn:Hopen.
      pose proof (open_le (comName (normalizePort port)) s) as Hle1.
      rewrite Hopen in Hle1. cbn [snd] in Hle1.
      destruct (await_spec sid evs s1) as [Hle2 Hres].
      destruct (await sid evs s1) as [[[r|] s2] evs2]; cbn [fst snd] in *;
        [|discriminate].
      assert (Hnext : exists results1,
                 probeAll_loop todo results1
                   (opened ++ [(normalizePort port, sid)]) evs2 s2
                 = ScanDone results' opened' s' rest /\
                 results1 = results ++
                   match r with
                   | inl v => [mkResult (normalizePort port) v]
                   | inr _ => []
                   end).
      { destruct r as [v|e]; eexists; (split; [exact Hscan|]); [done|].
        by rewrite app_nil_r. }
      destruct Hnext as [results1 [Hscan1 ->]].
      apply IH in Hscan1 as [Hle3 [new [-> [Hmap [-> Hall]]]]].
      split; [eapply settled_le_trans; [exact Hle1|];
              eapply settled_le_trans; [exact Hle2 | exact Hle3]|].
      exists ((normalizePort port, sid) :: new).
      pose proof (outcome_of_le s2 s' (normalizePort port, sid) r
                    Hle3 Hres) as Hout.
      split; [by rewrite <- app_assoc|].
      split; [by rewrite candidates_cons_match, <- Hmap|].
      split.
      { rewrite omap_outcome_cons, Hout, <- app_assoc. by destruct r. }
      apply Forall_cons. split; [|done]. cbn [snd].
      rewrite (Hle3 _ _ Hres). by eexists.
    + apply IH in Hscan as [Hle [new [-> [Hmap [-> Hall]]]]].
      split; [done|]. exists new.
      by rewrite candidates_cons_skip.
Qed.

(** When the loop is left by an exception: the filter threw on a
    descriptor, the first one on which it throws. *)
Lemma probeAll_loop_rejected todo :
  forall results opened evs s e,
  probeAll_loop todo results opened evs s = ScanRejected e ->
  exists l1 port l2,
    todo = l1 ++ port :: l2 /\
    filterThrows port = Some e /\
    Forall (fun p => filterThrows p = None) l1.
Proof.
  induction todo as [|port todo IH]; intros results opened evs s e Hscan;
    [done|].
  rewrite probeAll_loop_cons in Hscan.
  destruct (filterThrows port) as [e'|] eqn:Hthrow.
  - injection Hscan as ->. by exists [], port, todo.
  - assert (Hnext : exists results1 opened1 evs1 s1,
               probeAll_loop todo results1 opened1 evs1 s1 = ScanRejected e).
    { destruct (anyGroupMatches (normalizePort port) (filter param)).
      - destruct (open (comName (normalizePort port)) s) as [sid s1].
        destruct (await sid evs s1) as [[[[v|e']|] s2] evs2];
          [by eauto | by eauto | discriminate].
      - by eauto. }
    destruct Hnext as [results1 [opened1 [evs1 [s1 Hscan1]]]].
    apply IH in Hscan1 as [l1 [port' [l2 [-> [Hthrow' Hl1]]]]].
    exists (port :: l1), port', l2. split; [done|]. split; [done|].
    by apply Forall_cons.
Qed.

(** When the events of the host end before the loop does: the promise
    awaited last is still pending, those awaited before it are settled. *)
Lemma probeAll_loop_hung todo :
  forall results opened evs s opened' s',
  probeAll_loop todo results opened evs s = ScanHung opened' s' ->
  settled_le s s' /\
  exists settled_ones last,
    opened' = opened ++ settled_ones ++ [last] /\
    settled (snd last) s' = None /\
    Forall (fun o => is_Some (settled (snd o) s')) settled_ones /\
    map fst (settled_ones ++ [last]) `prefix_of` candidates todo.
Proof.
  induction todo as [|port todo IH];
    intros results opened evs s opened' s' Hscan; [done|].
  rewrite probeAll_loop_cons in Hscan.
  destruct (filterThrows port) as [e|]; [discriminate|].
  destruct (anyGroupMatches (normalizePort port) (filter param)) eqn:Hm.
  - destruct (open (comName (normalizePort port)) s) as [sid s1] eqn:Hopen.
    pose proof (open_le (comName (normalizePort port)) s) as Hle1.
    rewrite Hopen in Hle1. cbn [snd] in Hle1.
    destruct (await_spec sid evs s1) as [Hle2 Hres].
    rewrite candidates_cons_match by done.
    destruct (await sid evs s1) as [[[r|] s2] evs2]; cbn [fst snd] in *.
    + assert (Hnext : exists results1,
                 probeAll_loop todo results1
                   (opened ++ [(normalizePort port, sid)]) evs2 s2
                 = ScanHung opened' s').
      { destruct r as [v|e]; by eexists. }
      destruct Hnext as [results1 Hscan1].
      apply IH in Hscan1 as [Hle3 [ok [last [-> [Hlast [Hall Hpre]]]]]].
      split; [eapply settled_le_trans; [exact Hle1|];
              eapply settled_le_trans; [exact Hle2 | exact Hle3]|].
      exists ((normalizePort port, sid) :: ok), last.
      split; [by rewrite <- app_assoc|]. split; [done|]. split.
      * apply Forall_cons. split; [|done]. cbn [snd].
        rewrite (Hle3 _ _ Hres). by eexists.
      * cbn [app map fst]. by apply prefix_cons.
    + injection Hscan as <- <-.
      split; [eapply settled_le_trans; [exact Hle1 | exact Hle2]|].
      exists [], (normalizePort port, sid).
      split; [done|]. split; [done|]. split; [constructor|].
      cbn. apply prefix_cons, prefix_nil.
  - rewrite candidates_cons_skip by done. by apply IH in Hscan.
Qed.

(** C3: [probeAll] is rejected with the error of [SerialPort.list()] when
    the listing fails.  When the listing succeeds it is rejected only by an
    exception thrown while the filter is evaluated on a listed descriptor,
    never by the failure of an [open].  A candidate whose promise the host
    settles, resolved or rejected with whatever error, lets the loop go on
    with the descriptors and the host events that are left, a rejected one
    adding nothing to the array.  So when [probeAll] returns it has called
    [open] once for each candidate in the order of the listing, every one
    of these promises is settled, and the array holds, in that order, one
    element for each promise that was resolved and none for those that were
    rejected; and when the host falls silent before that, the promise
    awaited last is still pending. *)
Theorem probeAll_swallows_port_failures (listing : jserr + list Port)
    (evs : list event) (s : State) :
  (forall e, listing = inl e -> probeAll listing evs s = ScanRejected e) /\
  (forall listed e, listing = inr listed ->
     probeAll listing evs s = ScanRejected e ->
     exists l1 port l2,
       listed = l1 ++ port :: l2 /\ filterThrows port = Some e /\
       Forall (fun p => filterThrows p = None) l1) /\
  (forall port todo results opened evs1 ev evs2 r,
     filterThrows port = None ->
     fst (serialPortMatchesFilter port) = true ->
     let sid := fst (open (comName (normalizePort port)) s) in
     let s1 := snd (open (comName (normalizePort port)) s) in
     settled sid (run evs1 s1) = None ->
     settled sid (run (evs1 ++ [ev]) s1) = Some r ->
     probeAll_loop (port :: todo) results opened (evs1 ++ ev :: evs2) s =
     probeAll_loop todo
       (match r with
        | inl v => results ++ [mkResult (normalizePort port) v]
        | inr _ => results
        end)
       (opened ++ [(normalizePort port, sid)]) evs2
       (run (evs1 ++ [ev]) s1)) /\
  (forall listed results opened s' rest,
     listing = inr listed ->
     probeAll listing evs s = ScanDone results opened s' rest ->
     map fst opened = candidates listed /\
     Forall (fun o => is_Some (settled (snd o) s')) opened /\
     results = omap (outcome_of s') opened) /\
  (forall listed opened s',
     listing = inr listed ->
     probeAll listing evs s = ScanHung opened s' ->
     exists settled_ones last,
       opened = settled_ones ++ [last] /\
       settled (snd last) s' = None /\
       Forall (fun o => is_Some (settled (snd o) s')) settled_ones /\
       map fst opened `prefix_of` candidates listed).
Proof.
  split; [|split; [|split; [|split]]].
  - by intros e ->.
  - intros listed e -> Hscan. by apply probeAll_loop_rejected in Hscan.
  - intros port todo results opened evs1 ev evs2 r Hthrow Hyes sid s1 Hp Hr.
    rewrite serialPortMatchesFilter_normalized in Hyes. cbn [fst] in Hyes.
    rewrite probeAll_loop_cons, Hthrow, Hyes.
    subst sid s1.
    destruct (open (comName (normalizePort port)) s) as [sid s1].
    cbn [fst snd] in *. rewrite (await_settles _ _ _ _ _ _ Hp Hr).
    by destruct r.
  - intros listed results opened s' rest -> Hscan. cbn [probeAll] in Hscan.
    apply probeAll_loop_spec in Hscan as [_ [new [-> [Hmap [-> Hall]]]]].
    by cbn [app].
  - intros listed opened s' -> Hscan. cbn [probeAll] in Hscan.
    apply probeAll_loop_hung in Hscan
      as [_ [ok [last [-> [Hlast [Hall Hpre]]]]]].
    by exists ok, last.
Qed.

(** * Further properties *)

(** ** Path rewriting and the filter *)

(** X1: rewriting a path twice gives what rewriting it once gives, and a
    rewritten path never starts with /dev/tty.usb: the second rewrite, in
    [serialPortMatchesFilter], of a descriptor already rewritten by
    [probeAll] changes nothing. *)
Theorem normalizePath_settles (p : string) :
  normalizePath (normalizePath p) = normalizePath p /\
  startsWith (normalizePath p) "/dev/tty.usb" = false.
Proof.
  split; [apply normalizePath_idem|].
  destruct (startsWith p "/dev/tty.usb") eqn:Hp.
  - apply startsWith_spec in Hp as [x ->].
    rewrite normalizePath_tty_usb. reflexivity.
  - by rewrite (normalizePath_other p Hp).
Qed.





(** X3: a filter key [comName] is matched against the rewritten path: with
    the single filter object [{comName: re}] the verdict is whether the
    rewritten path matches [re], whatever the descriptor was listed with. *)
Theorem comName_filter_sees_rewritten_path (port : Port) (re : pattern) :
  filter param = [[("comName", re)]] ->
  fst (serialPortMatchesFilter port)
  = re_match (normalizePath (comName port)) re.
Proof.
  intros Hf. rewrite serialPortMatchesFilter_normalized. cbn [fst].
  rewrite Hf. cbn [anyGroupMatches groupMatches]. unfold port_get.
  rewrite bool_decide_eq_true_2 by done. cbn [normalizePort comName].
  by destruct (re_match (normalizePath (comName port)) re).
Qed.


Lemma groupThrows_spec (port : Port) (g : FilterGroup pattern) msg :
  groupThrows port g = Some msg <->
  exists ks1 key re ks2 str,
    g = ks1 ++ (key, re) :: ks2 /\
    Forall (entry_matches port) ks1 /\
    port_get port key = Some (VStr str) /\
    re_error re = Some msg.
Proof.
  induction g as [|[key re] g IH]; cbn [groupThrows].
  - split; [done|]. intros (ks1 & ? & ? & ? & ? & Hg & _). by destruct ks1.
  - split.
    + destruct (port_get port key) as [[str| | | |]|] eqn:Hget; try done.
      destruct (re_error re) as [m|] eqn:Herr.
      * intros [= ->]. by exists [], key, re, g, str.
      * destruct (re_match str re) eqn:Hm; [|done].
        intros (ks1 & key' & re' & ks2 & str' & -> & Hks & Hget' & Herr')%IH.
        exists ((key, re) :: ks1), key', re', ks2, str'.
        split; [done|]. split; [|done].
        apply Forall_cons. split; [|done]. by exists str.
    + intros (ks1 & key' & re' & ks2 & str' & Hg & Hks & Hget' & Herr').
      destruct ks1 as [|e ks1]; cbn [app] in Hg.
      * injection Hg as -> -> ->. by rewrite Hget', Herr'.
      * injection Hg as <- ->.
        apply Forall_cons in Hks as [(str & Hget & Herr & Hm) Hks].
        cbn [fst snd] in *. rewrite Hget, Herr, Hm.
        apply IH. by exists ks1, key', re', ks2, str'.
Qed.

Lemma anyGroupThrows_spec (port : Port) (gs : list (FilterGroup pattern)) msg :
  anyGroupThrows port gs = Some msg <->
  exists gs1 g gs2,
    gs = gs1 ++ g :: gs2 /\
    Forall (group_fails port) gs1 /\
    groupThrows port g = Some msg.
Proof.
  induction gs as [|g gs IH]; cbn [anyGroupThrows].
  - split; [done|]. intros (gs1 & ? & ? & Hg & _). by destruct gs1.
  - split.
    + destruct (groupThrows port g) as [m|] eqn:Hthrow.
      * intros [= ->]. by exists [], g, gs.
      * destruct (groupMatches port g) eqn:Hm; [done|].
        intros (gs1 & g' & gs2 & -> & Hgs & Hthrow')%IH.
        exists (g :: gs1), g', gs2. split; [done|]. split; [|done].
        by apply Forall_cons.
    + intros (gs1 & g' & gs2 & Hg & Hgs & Hthrow').
      destruct gs1 as [|g1 gs1]; cbn [app] in Hg.
      * injection Hg as -> ->. by rewrite Hthrow'.
      * injection Hg as <- ->.
        apply Forall_cons in Hgs as [[Hthrow Hm] Hgs].
        rewrite Hthrow, Hm. apply IH. by exists gs1, g', gs2.
Qed.

Lemma groupThrows_valid (port : Port) (g : FilterGroup pattern) :
  (forall key re, In (key, re) g -> re_error re = None) ->
  groupThrows port g = None.
Proof.
  intros Hok. destruct (groupThrows port g) as [msg|] eqn:Hthrow; [|done].
  apply groupThrows_spec in Hthrow
    as (ks1 & key & re & ks2 & str & -> & _ & _ & Herr).
  rewrite (Hok key re) in Herr; [done|].
  apply in_or_app. right. by left.
Qed.

(** X24: when the evaluation of the filter throws.  It throws exactly
    when it reaches an entry whose pattern is a string that is no regular
    expression: the filter objects before that entry's have each been
    evaluated without matching, the entries before it in its filter object
    have all matched, and the descriptor holds the key of the entry as a
    string.  So a filter whose patterns are all regular expressions never
    throws, and neither does a filter on a descriptor that matches a
    filter object reached before the bad pattern. *)
Theorem filter_throws_exactly (port : Port) (msg : string) :
  (filterThrows port = Some (ErrObj msg) <->
   exists gs1 ks1 key re ks2 gs2 str,
     filter param = gs1 ++ (ks1 ++ (key, re) :: ks2) :: gs2 /\
     Forall (group_fails (normalizePort port)) gs1 /\
     Forall (entry_matches (normalizePort port)) ks1 /\
     port_get (normalizePort port) key = Some (VStr str) /\
     re_error re = Some msg) /\
  ((forall g key re, In g (filter param) -> In (key, re) g ->
      re_error re = None) ->
   filterThrows port = None) /\
  (forall gs1 g gs2,
     filter param = gs1 ++ g :: gs2 ->
     Forall (group_fails (normalizePort port)) gs1 ->
     Forall (entry_matches (normalizePort port)) g ->
     filterThrows port = None).
Proof.
  unfold filterThrows. split; [|split].
  - split.
    + destruct (anyGroupThrows _ _) as [m|] eqn:Hthrow; [|done].
      intros [= ->].
      apply anyGroupThrows_spec in Hthrow as (gs1 & g & gs2 & Hf & Hgs & Hg).
      apply groupThrows_spec in Hg
        as (ks1 & key & re & ks2 & str & -> & Hks & Hget & Herr).
      by exists gs1, ks1, key, re, ks2, gs2, str.
    + intros (gs1 & ks1 & key & re & ks2 & gs2 & str
              & Hf & Hgs & Hks & Hget & Herr).
      assert (Hthrow : anyGroupThrows (normalizePort port) (filter param)
                       = Some msg); [|by rewrite Hthrow].
      apply anyGroupThrows_spec.
      exists gs1, (ks1 ++ (key, re) :: ks2), gs2.
      split; [done|]. split; [done|].
      apply groupThrows_spec. by exists ks1, key, re, ks2, str.
  - intros Hok.
    destruct (anyGroupThrows _ _) as [m|] eqn:Hthrow; [|done].
    apply anyGroupThrows_spec in Hthrow as (gs1 & g & gs2 & Hf & _ & Hg).
    rewrite (groupThrows_valid (normalizePort port) g) in Hg; [done|].
    intros key re Hin. apply (Hok g key re); [|done].
    rewrite Hf. apply in_or_app. right. by left.
  - intros gs1 g gs2 Hf Hgs Hg. rewrite Hf. clear Hf.
    induction Hgs as [|g1 gs1 [Hthrow1 Hm1] _ IH]; cbn [app anyGroupThrows];
      [|by rewrite Hthrow1, Hm1].
    assert (Hno : groupThrows (normalizePort port) g = None).
    { destruct (groupThrows _ g) as [m|] eqn:Hthrow; [|done].
      apply groupThrows_spec in Hthrow
        as (ks1 & key & re & ks2 & str & -> & _ & Hget & Herr).
      apply Forall_app in Hg as [_ Hg].
      apply Forall_cons in Hg as [(str' & _ & Herr' & _) _].
      cbn [snd] in Herr'. congruence. }
    assert (Hyes : groupMatches (normalizePort port) g = true).
    { apply groupMatches_spec. intros key re Hin.
      destruct (proj1 (Forall_forall _ _) Hg (key, re))
        as (str & Hget & _ & Hm); [by apply list_elem_of_In|].
      by exists str. }
    by rewrite Hno, Hyes.
Qed.

Lemma list_ascii_of_string_app (a b : string) :
  list_ascii_of_string (a +:+ b)
  = list_ascii_of_string a ++ list_ascii_of_string b.
Proof.
  induction a as [|c a IH]; [done|].
  change (c :: list_ascii_of_string (a +:+ b)
          = c :: list_ascii_of_string a ++ list_ascii_of_string b).
  by rewrite IH.
Qed.

Lemma includes_anywhere (pre post pat : string) :
  includes (pre +:+ pat +:+ post) pat = true.
Proof.
  unfold includes. apply list_includes_spec.
  exists (list_ascii_of_string pre), (list_ascii_of_string post).
  by rewrite !list_ascii_of_string_app.
Qed.

(** X5: an open error counts as a lock failure when the text
    "Cannot lock port" occurs anywhere in its message: below the ceiling
    such an error, whatever surrounds the text, sets the retry timer and
    rejects nothing. *)
Theorem lock_error_by_substring path n lt P prs ss nt t tr sid
    (pre post : string) :
  S n < MAX_OPEN_ATTEMPTS ->
  step (OpenDone (length P) (Some (pre +:+ "Cannot lock port" +:+ post)))
    (opening_state path n lt P prs ss nt t tr sid) =
  waiting_state path (S n) P prs ss nt t t
    (tr ++ [(t, ESetTimeout nt 1000)]) sid.
Proof. intros Hn. apply open_done_lock; [apply includes_anywhere | done]. Qed.


(** ** close *)

(** X6: [close()] cancels no timer and settles no promise: it leaves the
    pending timers, the promises, the probe closures, the lock counter and
    [this.lockTimer] as they are, changes no port object other than the one
    in [this.serialPort], and afterwards [this.serialPort] is not an open
    port object. *)
Theorem close_frame (s : State) :
  timers (close s) = timers s /\
  sessions (close s) = sessions s /\
  probes (close s) = probes s /\
  lockAttempt (close s) = lockAttempt s /\
  lockTimer (close s) = lockTimer s /\
  (forall h, serialPort s <> Some h -> ports (close s) !! h = ports s !! h) /\
  match serialPort (close s) with
  | Some h => isOpen h (close s) = false
  | None => True
  end.
Proof.
  unfold close. destruct (serialPort s) as [h|] eqn:Hsp.
  - destruct (isOpen h s) eqn:Hopen.
    + repeat split; try reflexivity.
      intros h' Hne. cbn. apply list_lookup_alter_ne. congruence.
    + rewrite Hsp. by repeat split.
  - rewrite Hsp. by repeat split.
Qed.

(** ** The probe after its outcome *)

Lemma advance_resolved path n lt P prs ss tid t tr sid data dt :
  step (Advance dt) (resolved_state path n lt P prs ss tid t tr sid data) =
  resolved_state path n lt P prs ss tid (t + dt) tr sid data.
Proof. reflexivity. Qed.

Lemma data_after_match path n lt P prs ss tid t tr sid data chunk :
  list_includes data (probeRsp param) = true ->
  step (Data (length P) chunk)
    (resolved_state path n lt P prs ss tid t tr sid data) =
  resolved_state path n lt P prs ss tid t (tr ++ [(t, EClearTimeout tid)])
    sid (data ++ chunk).
Proof.
  intros Hinc. unfold resolved_state, step. cbn [ports].
  rewrite lookup_snoc. cbn. unfold on_data. session_simpl.
  rewrite (list_includes_app _ chunk _ Hinc).
  unfold probe_resolve, clearTimeout. by session_simpl.
Qed.

(** X7: the ['data'] listener installed by [probe] is never removed.  After
    the probe has succeeded, every chunk that arrives on the port object is
    still appended to the buffer of the probe and makes the listener call
    [clearTimeout] again; the promise stays resolved and no timer is set. *)
Theorem listener_survives_success (chunks : list (nat * list byte)) :
  forall path n lt P prs ss tid t tr sid data,
  list_includes data (probeRsp param) = true ->
  run (chunk_script (length P) chunks)
    (resolved_state path n lt P prs ss tid t tr sid data) =
  resolved_state path n lt P prs ss tid (t + elapsed chunks)
    (tr ++ clear_trace tid t chunks) sid (data ++ received chunks).
Proof.
  induction chunks as [|[dt c] chunks IH];
    intros path n lt P prs ss tid t tr sid data Hinc.
  - cbn. by rewrite Nat.add_0_r, !app_nil_r.
  - cbn [chunk_script]. rewrite !run_cons, advance_resolved.
    rewrite data_after_match by done.
    rewrite IH by (by apply list_includes_app).
    rewrite received_cons, elapsed_cons, <- !app_assoc, Nat.add_assoc.
    reflexivity.
Qed.

Lemma close_probing path n lt P prs ss tid t0 t tr sid data :
  close (probing_state path n lt P prs ss tid t0 t tr sid data) =
  abandoned_probe_state n lt path P prs ss tid t0 t
    (tr ++ [(t, EClosePort (length P))]) sid data.
Proof. unfold close, isOpen, probing_state. by session_simpl. Qed.

(** X9: when [close()] is called while the probe is waiting, the port
    object is closed at once but the promise stays pending until the
    deadline; the timer then rejects it with a text that names the port
    as null, [close()] having cleared [this.portName]. *)
Theorem close_during_probe path n lt P prs ss tid t0 t tr sid data d :
  ss !! sid = Some Pending ->
  t0 + 500 <= t + d ->
  let s1 := close (probing_state path n lt P prs ss tid t0 t tr sid data) in
  let e := ErrStr (probe_timeout_text "null") in
  isOpen (length P) s1 = false /\
  settled sid s1 = None /\
  step (Advance d) s1 =
  timed_out_state path n lt P prs ss tid (t + d)
    (tr ++ [(t, EClosePort (length P)); (t0 + 500, EReject sid e)])
    sid data e.
Proof.
  intros Hsid Hd. cbn zeta. rewrite close_probing.
  split; [|split].
  - unfold isOpen, abandoned_probe_state. by session_simpl.
  - unfold settled. cbn. by rewrite Hsid.
  - unfold abandoned_probe_state, step, advance. cbn.
    rewrite (proj2 (Nat.leb_le _ _) Hd). unfold fire. session_simpl.
    unfold on_probe_timeout, probe_reject. session_simpl.
    unfold reject. session_simpl. rewrite Hsid.
    unfold close. session_simpl.
    by rewrite <- app_assoc.
Qed.

(** ** open while an earlier open is retrying *)

(** X10: [open] is not re-entrant.  When [open(q)] is called while an
    earlier [open(p)] waits for its retry timer, the lock counter is reset
    and [this.portName] becomes [q]; when the timer of the earlier session
    fires, its retry opens [q], not [p]. *)
Theorem open_while_retrying path q n P prs ss nt t0 t tr sid dt :
  t0 + 1000 <= t + dt ->
  run [CallOpen q; Advance dt] (waiting_state path n P prs ss nt t0 t tr sid) =
  mkState (Some q) 0 (Some (S (S (length P)))) (Some nt)
    (P ++ [failed_port path sid;
           mkSerialPort (Some q) (baudRate param) Opening (length ss) [];
           mkSerialPort (Some q) (baudRate param) Opening sid []])
    prs (ss ++ [Pending]) [] (S nt) (t + dt)
    (tr ++ [(t, ENewSerialPort (S (length P)) (Some q) (baudRate param));
            (t0 + 1000,
             ENewSerialPort (S (S (length P))) (Some q) (baudRate param))]).
Proof.
  intros Hdt. rewrite !run_cons, run_nil.
  unfold waiting_state, step, open, tryToOpen, advance. session_simpl.
  rewrite (proj2 (Nat.leb_le _ _) Hdt). unfold fire. session_simpl.
  unfold tryToOpen. session_simpl.
  rewrite !length_app. cbn [length]. rewrite !Nat.add_1_r.
  by rewrite <- !app_assoc.
Qed.

(** X13: the retry waits for the full delay.  While less than 1000 ms have
    passed since the lock failure nothing happens; the next attempt is
    made at exactly 1000 ms after the failure, also when the clock is
    advanced past that time in one step. *)
Theorem lock_retry_at_delay path n P prs ss nt t0 tr sid dt1 dt2 :
  dt1 < 1000 ->
  1000 <= dt1 + dt2 ->
  step (Advance dt1) (waiting_state path n P prs ss nt t0 t0 tr sid) =
  waiting_state path n P prs ss nt t0 (t0 + dt1) tr sid /\
  run [Advance dt1; Advance dt2]
    (waiting_state path n P prs ss nt t0 t0 tr sid) =
  opening_state path n (Some nt) (P ++ [failed_port path sid]) prs ss
    (S nt) (t0 + dt1 + dt2)
    (tr ++ [(t0 + 1000,
             ENewSerialPort (length (P ++ [failed_port path sid]))
               (Some path) (baudRate param))])
    sid.
Proof.
  intros H1 H2. split.
  - apply advance_waiting_idle. lia.
  - rewrite !run_cons, run_nil, advance_waiting_idle by lia.
    apply advance_waiting_fire. lia.
Qed.

(** X12: with an empty [probeRsp] the probe succeeds on the first chunk
    that arrives, whatever it holds, an empty chunk included. *)
Theorem empty_response_matches_first_chunk
    path n lt P prs ss tid t0 t tr sid data chunk :
  probeRsp param = [] ->
  ss !! sid = Some Pending ->
  step (Data (length P) chunk)
    (probing_state path n lt P prs ss tid t0 t tr sid data) =
  resolved_state path n lt P prs ss tid t
    (tr ++ [(t, EClearTimeout tid); (t, EResolve sid (Some (length P)))])
    sid (data ++ chunk).
Proof.
  intros Hrsp Hsid. apply data_match; [|done].
  rewrite Hrsp. by destruct (data ++ chunk).
Qed.


(** ** probeAll and the listing *)

Lemma settled_opening path n lt P prs ss nt t tr sid :
  ss !! sid = Some Pending ->
  settled sid (opening_state path n lt P prs ss nt t tr sid) = None.
Proof. intros Hsid. unfold settled. cbn. by rewrite Hsid. Qed.

Lemma await_silent (evs : list event) :
  forall path n lt P prs ss nt t tr sid,
  Forall is_advance evs ->
  ss !! sid = Some Pending ->
  exists t',
    await sid evs (opening_state path n lt P prs ss nt t tr sid) =
    (None, opening_state path n lt P prs ss nt t' tr sid, []).
Proof.
  induction evs as [|ev evs IH];
    intros path n lt P prs ss nt t tr sid Hevs Hsid.
  - exists t. cbn [await]. by rewrite settled_opening.
  - apply Forall_cons in Hevs as [Hev Hevs].
    destruct ev as [| | | |dt]; try done.
    cbn [await]. rewrite settled_opening by done.
    rewrite advance_opening. by apply IH.
Qed.

(** X11: nothing bounds the wait for the open callback.  On an instance
    with no timer pending and with a filter that throws on no listed
    descriptor, if the host never calls back, then however much time passes
    [probeAll] neither resolves nor rejects: it is still awaiting the
    [open] of its first candidate, whose promise is pending. *)
Theorem probeAll_waits_for_open_callback (listed : list Port)
    (evs : list event) (s : State) :
  timers s = [] ->
  Forall is_advance evs ->
  Forall (fun port => filterThrows port = None) listed ->
  candidates listed <> [] ->
  exists port sid s',
    probeAll (inr listed) evs s = ScanHung [(port, sid)] s' /\
    head (candidates listed) = Some port /\
    settled sid s' = None.
Proof.
  intros Ht Hevs Hok Hc. cbn [probeAll].
  induction listed as [|port listed IH]; [done|].
  apply Forall_cons in Hok as [Hport Hok].
  rewrite probeAll_loop_cons, Hport.
  destruct (anyGroupMatches (normalizePort port) (filter param)) eqn:Hm.
  - rewrite candidates_cons_match by done.
    rewrite open_shape by done.
    edestruct (await_silent evs) as [t' Ha]; [exact Hevs | apply lookup_snoc |].
    rewrite Ha. eexists _, _, _. split; [reflexivity|]. split; [done|].
    apply settled_opening, lookup_snoc.
  - rewrite candidates_cons_skip in * by done. by apply IH.
Qed.

Lemma considered_candidates (listed : list Port) :
  Forall (fun port => filterThrows port = None) listed ->
  considered listed = candidates listed.
Proof.
  unfold considered, candidates.
  induction 1 as [|port listed Hport _ IH]; [done|].
  cbn [map List.filter]. by rewrite filterThrows_normalized, Hport, IH.
Qed.

(** X14: [probeAll] depends on the listing only through the descriptors
    that the filter accepts or throws on: descriptors on which the filter
    returns false, and the rewriting of paths that are rewritten already,
    leave its course unchanged.  With a filter that throws on no listed
    descriptor, these are its candidates. *)
Theorem probeAll_only_candidates_matter (listed : list Port)
    (evs : list event) (s : State) :
  probeAll (inr listed) evs s = probeAll (inr (considered listed)) evs s /\
  (Forall (fun port => filterThrows port = None) listed ->
   probeAll (inr listed) evs s = probeAll (inr (candidates listed)) evs s).
Proof.
  assert (Hgen : forall evs s,
            probeAll (inr listed) evs s
            = probeAll (inr (considered listed)) evs s).
  { clear evs s. intros evs s.
    cbn [probeAll]. generalize (@nil ProbeResult) (@nil (Port * nat)).
    revert evs s. induction listed as [|port listed IH];
      intros evs s results opened; [done|].
    rewrite probeAll_loop_cons. unfold considered. cbn [map List.filter].
    fold (considered listed). rewrite filterThrows_normalized.
    destruct (filterThrows port) as [e|] eqn:Hport.
    - by rewrite probeAll_loop_cons, filterThrows_normalized, Hport.
    - destruct (anyGroupMatches (normalizePort port) (filter param)) eqn:Hm;
        [|by apply IH].
      rewrite probeAll_loop_cons, filterThrows_normalized, Hport.
      rewrite !normalizePort_idem, Hm.
      destruct (open (comName (normalizePort port)) s) as [sid s1].
      destruct (await sid evs s1) as [[[[v|e]|] s2] evs2];
        [by apply IH.. | done]. }
  split; [apply Hgen|].
  intros Hok. by rewrite Hgen, considered_candidates.
Qed.

(** X15: [probeAll] scans in sequence: scanning a listing made of two
    parts is scanning the first part and, when that returns, scanning the
    second part from the state, the array and the host events left. *)
Theorem probeAll_loop_app (l1 l2 : list Port) :
  forall results opened evs s,
  probeAll_loop (l1 ++ l2) results opened evs s =
  match probeAll_loop l1 results opened evs s with
  | ScanDone results' opened' s' rest =>
      probeAll_loop l2 results' opened' rest s'
  | other => other
  end.
Proof.
  induction l1 as [|port l1 IH]; intros results opened evs s; [done|].
  cbn [app probeAll_loop].
  destruct (filterThrows (normalizePort port)); [done|].
  destruct (serialPortMatchesFilter (normalizePort port)) as [[|] port'].
  - destruct (open (comName port') s) as [sid s1].
    destruct (await sid evs s1) as [[[[v|e]|] s2] evs2]; [apply IH.. | done].
  - apply IH.
Qed.

(** ** What the source asks of the host *)

Lemma log_ext_refl s : log_ext s s.
Proof. exists []. split; [by rewrite app_nil_r | constructor]. Qed.

Lemma log_ext_trans s1 s2 s3 : log_ext s1 s2 -> log_ext s2 s3 -> log_ext s1 s3.
Proof.
  intros [n1 [H1 Hok1]] [n2 [H2 Hok2]]. exists (n1 ++ n2). split.
  - by rewrite H2, H1, app_assoc.
  - by apply Forall_app.
Qed.

Lemma log_ext_same s s' : trace s' = trace s -> log_ext s s'.
Proof. intros Ht. exists []. split; [by rewrite app_nil_r | constructor]. Qed.

Lemma log_ext_emit e s : effect_ok e -> log_ext s (emit e s).
Proof.
  intros He. exists [(now s, e)]. split; [done|]. by apply Forall_singleton.
Qed.

Lemma log_ext_foldl {A} (f : State -> A -> State) (l : list A) s :
  (forall s x, log_ext s (f s x)) -> log_ext s (foldl f s l).
Proof.
  intros Hf. revert s. induction l as [|x l IH]; intros s; simpl.
  - apply log_ext_refl.
  - eapply log_ext_trans; [apply Hf | apply IH].
Qed.

Lemma close_log s : log_ext s (close s).
Proof.
  unfold close. destruct (serialPort s) as [h|]; [|apply log_ext_refl].
  destruct (isOpen h s); [|apply log_ext_refl].
  exists [(now s, EClosePort h)]. split; [done|]. by apply Forall_singleton.
Qed.

Lemma resolve_log sid v s : log_ext s (resolve sid v s).
Proof.
  unfold resolve. destruct (sessions s !! sid) as [[| |]|];
    try apply log_ext_refl.
  exists [(now s, EResolve sid v)]. split; [done|]. by apply Forall_singleton.
Qed.

Lemma reject_log sid e s : log_ext s (reject sid e s).
Proof.
  unfold reject. destruct (sessions s !! sid) as [[| |]|];
    try apply log_ext_refl.
  eapply log_ext_trans; [|by apply log_ext_emit].
  eapply log_ext_trans; [|apply close_log]. by apply log_ext_same.
Qed.

Lemma probe_resolve_log pid s : log_ext s (probe_resolve pid s).
Proof.
  unfold probe_resolve. destruct (probes s !! pid) as [pc|];
    [|apply log_ext_refl].
  destruct (pc_settled pc); [apply log_ext_refl|].
  eapply log_ext_trans; [|apply resolve_log]. by apply log_ext_same.
Qed.

Lemma probe_reject_log pid e s : log_ext s (probe_reject pid e s).
Proof.
  unfold probe_reject. destruct (probes s !! pid) as [pc|];
    [|apply log_ext_refl].
  destruct (pc_settled pc); [apply log_ext_refl|].
  eapply log_ext_trans; [|apply reject_log]. by apply log_ext_same.
Qed.

Lemma on_data_log chunk pid s : log_ext s (on_data chunk pid s).
Proof.
  unfold on_data. destruct (probes s !! pid) as [pc|]; [|apply log_ext_refl].
  destruct (list_includes _ _); [|by apply log_ext_same].
  eapply log_ext_trans; [|apply probe_resolve_log].
  exists [(now s, EClearTimeout (pc_timer pc))].
  split; [done|]. by apply Forall_singleton.
Qed.

Lemma tryToOpen_log sid s : log_ext s (tryToOpen sid s).
Proof.
  exists [(now s, ENewSerialPort (length (ports s)) (portName s)
                    (baudRate param))].
  split; [done|]. by apply Forall_singleton.
Qed.

Lemma probe_log sid s : log_ext s (probe sid s).
Proof.
  unfold probe. cbn. destruct (serialPort s) as [h|].
  - unfold log_ext.
    exists [(now s, ESetTimeout (nextTimer s) 500);
            (now s, EWrite h (probeCmd param))].
    split; [cbn; by rewrite <- app_assoc|].
    apply Forall_cons. split; [by right|]. by apply Forall_singleton.
  - eapply log_ext_trans; [|apply probe_reject_log].
    exists [(now s, ESetTimeout (nextTimer s) 500)].
    split; [done|]. apply Forall_singleton. by right.
Qed.

Lemma on_open_log sid err s : log_ext s (on_open sid err s).
Proof.
  unfold on_open. destruct err as [msg|]; [|apply probe_log].
  destruct (includes msg _); [|apply reject_log].
  destruct (_ <=? _).
  - eapply log_ext_trans; [|apply reject_log]. by apply log_ext_same.
  - exists [(now s, ESetTimeout (nextTimer s) 1000)].
    split; [done|]. apply Forall_singleton. by left.
Qed.

Lemma open_log path s : log_ext s (snd (open path s)).
Proof.
  unfold open. cbn [snd].
  eapply log_ext_trans; [|apply tryToOpen_log]. by apply log_ext_same.
Qed.

Lemma fire_log t s : log_ext s (fire t s).
Proof.
  unfold fire. destruct (existsb _ _); [|apply log_ext_refl].
  eapply log_ext_trans; [|destruct (tm_cb t) as [sid|pid]; cbn [run_timer];
                          [apply tryToOpen_log | apply probe_reject_log]].
  by apply log_ext_same.
Qed.

Lemma step_log ev s : log_ext s (step ev s).
Proof.
  destruct ev as [path| |h err|h chunk|dt]; cbn [step].
  - apply open_log.
  - apply close_log.
  - destruct (ports s !! h) as [p|]; [|apply log_ext_refl].
    destruct (sp_status p); try apply log_ext_refl.
    eapply log_ext_trans; [|apply on_open_log]. by apply log_ext_same.
  - destruct (ports s !! h) as [p|]; [|apply log_ext_refl].
    destruct (sp_status p); try apply log_ext_refl.
    apply log_ext_foldl. intros. apply on_data_log.
  - unfold advance. eapply log_ext_trans; [|by apply log_ext_same].
    apply log_ext_foldl. intros. apply fire_log.
Qed.

(** X16: whatever the caller and the host do, in whatever order, the log
    of effects only grows, every port object the source asks for is at
    the configured baud rate, every write is of exactly the probe command,
    and every timer it sets is of 1000 or 500 ms.  (Closes, cleared timers
    and the settling of promises are not constrained here.) *)
Theorem host_requests_wellformed (evs : list event) (s : State) :
  log_ok (trace s) ->
  log_ok (trace (run evs s)) /\
  exists new, trace (run evs s) = trace s ++ new.
Proof.
  intros Hok.
  assert (Hext : log_ext s (run evs s)).
  { apply log_ext_foldl. intros. apply step_log. }
  destruct Hext as [new [Htr Hnew]]. split; [|by exists new].
  rewrite Htr. by apply Forall_app.
Qed.


(** ** One call of [open] under any behaviour of the host *)

Lemma open_done_noop s h err :
  (forall p, ports s !! h = Some p -> sp_status p <> Opening) ->
  step (OpenDone h err) s = s.
Proof.
  intros Hp. cbn [step]. destruct (ports s !! h) as [p|]; [|done].
  specialize (Hp p eq_refl). by destruct (sp_status p).
Qed.

Lemma data_noop s h chunk :
  (forall p, ports s !! h = Some p -> sp_status p <> IsOpen) ->
  step (Data h chunk) s = s.
Proof.
  intros Hp. cbn [step]. destruct (ports s !! h) as [p|]; [|done].
  specialize (Hp p eq_refl). by destruct (sp_status p).
Qed.



Lemma writes_app tr1 tr2 : writes (tr1 ++ tr2) = writes tr1 + writes tr2.
Proof. unfold writes. by rewrite List.filter_app, length_app. Qed.

Ltac count_log :=
  rewrite ?attempts_app, ?writes_app;
  unfold attempts, writes, MAX_OPEN_ATTEMPTS in *; cbn in *; lia.











(** ** Port objects the prober has moved on from *)

Lemma kept_open_same h s s' :
  ports s' = ports s -> serialPort s' = serialPort s ->
  kept_open h s -> kept_open h s'.
Proof. unfold kept_open, isOpen. by intros -> ->. Qed.

Lemma kept_open_update h h' f s :
  h' <> h -> kept_open h s -> kept_open h (update_port h' f s).
Proof.
  intros Hne [Ho Hs]. split; [|done].
  unfold isOpen, update_port in *. cbn.
  by rewrite list_lookup_alter_ne.
Qed.

Lemma kept_open_lt h s : kept_open h s -> h < length (ports s).
Proof.
  intros [Ho _]. unfold isOpen in Ho.
  destruct (ports s !! h) as [p|] eqn:Hp; [|done].
  by eapply lookup_lt_Some.
Qed.

Lemma kept_open_foldl {A} h (f : State -> A -> State) (l : list A) s :
  (forall s x, kept_open h s -> kept_open h (f s x)) ->
  kept_open h s -> kept_open h (foldl f s l).
Proof.
  intros Hf. revert s. induction l as [|x l IH]; intros s Hs; [done|].
  cbn. by apply IH, Hf.
Qed.

Lemma close_keeps h s : kept_open h s -> kept_open h (close s).
Proof.
  intros Hk. unfold close. destruct (serialPort s) as [h'|] eqn:Hsp; [|done].
  destruct (isOpen h' s); [|done].
  assert (Hne : h' <> h) by (destruct Hk as [_ Hk]; congruence).
  pose proof (kept_open_update h h' (set_status NotOpen) s Hne Hk) as [Ho _].
  split; [exact Ho | done].
Qed.

Lemma resolve_keeps h sid v s : kept_open h s -> kept_open h (resolve sid v s).
Proof.
  intros Hk. unfold resolve. by destruct (sessions s !! sid) as [[| |]|].
Qed.

Lemma reject_keeps h sid e s : kept_open h s -> kept_open h (reject sid e s).
Proof.
  intros Hk. unfold reject. destruct (sessions s !! sid) as [[| |]|]; try done.
  eapply kept_open_same; [reflexivity | reflexivity |].
  apply close_keeps. by eapply kept_open_same; [| |exact Hk].
Qed.

Lemma probe_resolve_keeps h pid s :
  kept_open h s -> kept_open h (probe_resolve pid s).
Proof.
  intros Hk. unfold probe_resolve. destruct (probes s !! pid) as [pc|]; [|done].
  destruct (pc_settled pc); [done|]. by apply resolve_keeps.
Qed.

Lemma probe_reject_keeps h pid e s :
  kept_open h s -> kept_open h (probe_reject pid e s).
Proof.
  intros Hk. unfold probe_reject. destruct (probes s !! pid) as [pc|]; [|done].
  destruct (pc_settled pc); [done|]. by apply reject_keeps.
Qed.

Lemma on_data_keeps h chunk pid s :
  kept_open h s -> kept_open h (on_data chunk pid s).
Proof.
  intros Hk. unfold on_data. destruct (probes s !! pid) as [pc|]; [|done].
  destruct (list_includes _ _); [|done]. by apply probe_resolve_keeps.
Qed.

Lemma tryToOpen_keeps h sid s : kept_open h s -> kept_open h (tryToOpen sid s).
Proof.
  intros Hk. pose proof (kept_open_lt h s Hk) as Hlt.
  destruct Hk as [Ho _]. split.
  - unfold isOpen in *. cbn. by rewrite lookup_app_l.
  - cbn. intros [= Heq]. lia.
Qed.

Lemma probe_keeps h sid s : kept_open h s -> kept_open h (probe sid s).
Proof.
  intros Hk. unfold probe. cbn. destruct (serialPort s) as [h'|] eqn:Hsp.
  - assert (Hne : h' <> h) by (destruct Hk as [_ Hk]; congruence).
    eapply kept_open_same; [reflexivity | reflexivity |].
    apply kept_open_update; [done|].
    eapply kept_open_same; [| |exact Hk]; [reflexivity | by rewrite Hsp].
  - apply probe_reject_keeps.
    eapply kept_open_same; [| |exact Hk]; [reflexivity | by rewrite Hsp].
Qed.

Lemma on_open_keeps h sid err s :
  kept_open h s -> kept_open h (on_open sid err s).
Proof.
  intros Hk. unfold on_open. destruct err as [msg|]; [|by apply probe_keeps].
  destruct (includes msg _); [|by apply reject_keeps].
  destruct (_ <=? _); [by apply reject_keeps | done].
Qed.

Lemma fire_keeps h t s : kept_open h s -> kept_open h (fire t s).
Proof.
  intros Hk. unfold fire. destruct (existsb _ _); [|done].
  destruct (tm_cb t) as [sid|pid]; cbn [run_timer].
  - by apply tryToOpen_keeps.
  - by apply probe_reject_keeps.
Qed.

Lemma step_keeps h ev s : kept_open h s -> kept_open h (step ev s).
Proof.
  intros Hk. destruct ev as [path| |h' err|h' chunk|dt]; cbn [step].
  - unfold open. cbn [snd]. by apply tryToOpen_keeps.
  - by apply close_keeps.
  - destruct (ports s !! h') as [p|] eqn:Hp; [|done].
    destruct (sp_status p) eqn:Hst; try done.
    apply on_open_keeps, kept_open_update; [|done].
    intros ->. destruct Hk as [Ho _]. unfold isOpen in Ho.
    by rewrite Hp, Hst in Ho.
  - destruct (ports s !! h') as [p|]; [|done].
    destruct (sp_status p); try done.
    apply kept_open_foldl; [|done]. intros. by apply on_data_keeps.
  - unfold advance. eapply kept_open_same; [reflexivity | reflexivity |].
    apply kept_open_foldl; [|done]. intros. by apply fire_keeps.
Qed.

(** X18: the prober only ever closes the port object that is in
    [this.serialPort] at that moment, and [this.serialPort] never goes
    back to an earlier port object.  So an open port object that the
    prober has moved on from, as the earlier results of [probeAll] are,
    stays open whatever the caller and the host do next: no [close()], no
    failure of a later [open] closes it. *)
Theorem earlier_port_stays_open (evs : list event) (s : State) (h : nat) :
  isOpen h s = true ->
  serialPort s <> Some h ->
  isOpen h (run evs s) = true /\ serialPort (run evs s) <> Some h.
Proof.
  intros Ho Hs. change (kept_open h (run evs s)).
  apply kept_open_foldl; [|by split]. intros. by apply step_keeps.
Qed.


(** ** Data on port objects of earlier sessions *)

Lemma filter_timers_id (id : nat) (l : list Timer) :
  Forall (fun t => tm_id t <> id) l ->
  List.filter (fun t => negb (timer_is id t)) l = l.
Proof.
  induction l as [|t l IH]; intros Hl; [done|].
  apply Forall_cons in Hl as [Ht Hl]. cbn. unfold timer_is at 1.
  rewrite (proj2 (Nat.eqb_neq _ _) Ht). cbn. by rewrite IH.
Qed.

Lemma good_probes_alter bound prs pid d :
  good_probes bound prs -> good_probes bound (alter (set_data d) pid prs).
Proof.
  intros Hg. apply Forall_lookup. intros i pc Hi.
  destruct (decide (i = pid)) as [->|Hne].
  - destruct (prs !! pid) as [pc0|] eqn:Hp.
    + rewrite list_lookup_alter_eq, Hp in Hi. injection Hi as <-.
      exact (proj1 (Forall_lookup _ _) Hg _ _ Hp).
    + rewrite list_lookup_alter_eq, Hp in Hi. done.
  - rewrite list_lookup_alter_ne in Hi by done.
    exact (proj1 (Forall_lookup _ _) Hg _ _ Hi).
Qed.

Lemma good_probes_weaken b b' prs :
  b <= b' -> good_probes b prs -> good_probes b' prs.
Proof.
  intros Hb Hg. eapply Forall_impl; [exact Hg|].
  intros pc [Hs Ht]. split; [done | lia].
Qed.

(** A chunk handed to the listener of a settled probe only grows the
    buffer of that probe and may log one more [clearTimeout]. *)
Lemma on_data_settled bound chunk pid s prs tail :
  probes s = prs ++ tail ->
  pid < length prs ->
  good_probes bound prs ->
  Forall (fun t => bound <= tm_id t) (timers s) ->
  exists prs' clears,
    on_data chunk pid s
    = set_trace (trace s ++ clears) (set_probes (prs' ++ tail) s) /\
    length prs' = length prs /\
    good_probes bound prs' /\
    attempts clears = 0 /\ writes clears = 0.
Proof.
  intros Hprs Hpid Hgood Htim.
  destruct (lookup_lt_is_Some_2 prs pid Hpid) as [pc Hpc].
  destruct (proj1 (Forall_lookup _ _) Hgood _ _ Hpc) as [Hset Hbound].
  exists (alter (set_data (pc_data pc ++ chunk)) pid prs).
  unfold on_data. rewrite Hprs, (lookup_app_l_Some _ _ _ _ Hpc).
  rewrite alter_app_l by done.
  destruct (list_includes (pc_data pc ++ chunk) (probeRsp param)).
  - exists [(now s, EClearTimeout (pc_timer pc))].
    split; [|split; [by rewrite length_alter|split;
                     [by apply good_probes_alter|by split]]].
    unfold probe_resolve, clearTimeout. cbn.
    rewrite lookup_app_l by (by rewrite length_alter).
    rewrite list_lookup_alter_eq, Hpc. cbn. rewrite Hset.
    rewrite filter_timers_id; [done|].
    eapply Forall_impl; [exact Htim|]. cbn. intros t Ht. lia.
  - exists []. rewrite app_nil_r.
    split; [|split; [by rewrite length_alter|split;
                     [by apply good_probes_alter|by split]]].
    by destruct s.
Qed.

Lemma on_data_prior bound chunk (l : list nat) :
  forall s prs tail,
  probes s = prs ++ tail ->
  Forall (fun pid => pid < length prs) l ->
  good_probes bound prs ->
  Forall (fun t => bound <= tm_id t) (timers s) ->
  exists prs' clears,
    foldl (fun s pid => on_data chunk pid s) s l
    = set_trace (trace s ++ clears) (set_probes (prs' ++ tail) s) /\
    length prs' = length prs /\
    good_probes bound prs' /\
    attempts clears = 0 /\ writes clears = 0.
Proof.
  induction l as [|pid l IH]; intros s prs tail Hprs Hl Hgood Htim.
  - exists prs, []. rewrite app_nil_r, <- Hprs.
    split; [by destruct s|]. by repeat split.
  - apply Forall_cons in Hl as [Hpid Hl]. cbn [foldl].
    destruct (on_data_settled bound chunk pid s prs tail Hprs Hpid Hgood Htim)
      as (prs1 & c1 & Heq1 & Hlen1 & Hgood1 & Ha1 & Hw1).
    rewrite Heq1.
    destruct (IH (set_trace (trace s ++ c1) (set_probes (prs1 ++ tail) s))
                prs1 tail eq_refl ltac:(by rewrite Hlen1) Hgood1 Htim)
      as (prs2 & c2 & Heq2 & Hlen2 & Hgood2 & Ha2 & Hw2).
    exists prs2, (c1 ++ c2). rewrite Heq2. cbn.
    split; [by rewrite app_assoc|]. split; [lia|]. split; [done|].
    rewrite attempts_app, writes_app. lia.
Qed.


(** ** One session of a scan under any behaviour of the host *)

Lemma lookup_scan_ports (P0 : list SerialPortObj) k f last h p :
  ((P0 ++ replicate k f) ++ [last]) !! h = Some p ->
  P0 !! h = Some p \/ p = f \/
  (h = length (P0 ++ replicate k f) /\ p = last).
Proof.
  intros Hl. destruct (decide (h < length (P0 ++ replicate k f))) as [Hlt|Hge].
  - rewrite lookup_app_l in Hl by done.
    destruct (decide (h < length P0)) as [Hlt0|Hge0].
    + left. by rewrite lookup_app_l in Hl.
    + right. left. rewrite lookup_app_r in Hl by lia.
      by apply lookup_replicate in Hl as [-> _].
  - right. right. rewrite lookup_app_r in Hl by lia.
    destruct (h - length (P0 ++ replicate k f)) as [|j] eqn:Hj;
      [|by destruct j].
    injection Hl as <-. split; [lia | done].
Qed.

Lemma replicate_snoc {A} k (x : A) : replicate k x ++ [x] = replicate (S k) x.
Proof. induction k as [|k IH]; [done|]. cbn. by rewrite IH. Qed.

Lemma step_data_open s h p chunk :
  ports s !! h = Some p -> sp_status p = IsOpen ->
  step (Data h chunk) s
  = foldl (fun s pid => on_data chunk pid s) s (sp_listeners p).
Proof. intros Hp Hst. cbn [step]. by rewrite Hp, Hst. Qed.

Ltac prior_port_lookup Hp :=
  cbn [ports opening_state waiting_state probing_state resolved_state
       timed_out_state refused_state];
  exact (lookup_app_l_Some _ _ _ _ (lookup_app_l_Some _ _ _ _ Hp)).

Lemma scan_prior_data path sid a0 w0 P0 k0 h p chunk s :
  listeners_below k0 P0 ->
  P0 !! h = Some p -> sp_status p = IsOpen ->
  scan_session path sid a0 w0 P0 k0 s ->
  scan_session path sid a0 w0 P0 k0 (step (Data h chunk) s).
Proof.
  intros Hlb Hp Hst Hs.
  pose proof (proj1 (Forall_lookup _ _) Hlb _ _ Hp) as Hlis.
  destruct Hs as [n lt k prs ss nt t tr Hn Hsid Hk0 Hgood Hatt Hwr
                 |n k prs ss nt t0 t tr Hn Hsid Hk0 Hgood Hatt Hwr
                 |n lt k prs ss tid t0 t tr data Hn Hsid Hk0 Hgood Hatt Hwr
                 |n lt k prs ss tid t tr data Hsid Hk0 Hgood Hinc Hatt Hwr
                 |n lt k prs ss tid t tr data e Hsid Hk0 Hgood Hatt Hwr
                 |n lt k prs ss nt t tr e Hsid Hk0 Hgood Hatt Hwr];
    rewrite <- Hk0 in Hlis.
  - rewrite (step_data_open _ h p) by (done || prior_port_lookup Hp).
    match goal with |- context [foldl _ ?st (sp_listeners p)] =>
      edestruct (on_data_prior nt chunk (sp_listeners p) st prs []
                   (eq_sym (app_nil_r prs)) Hlis Hgood)
      as (prs' & clears & Heq & Hlen & Hgood' & Ha & Hw); [constructor|]
    end.
    rewrite Heq.
    replace (set_trace _ _) with
      (opening_state path n lt (P0 ++ replicate k (failed_port path sid))
         prs' ss nt t (tr ++ clears) sid)
      by (unfold opening_state; cbn; by rewrite app_nil_r).
    constructor; try done; try congruence; count_log.
  - rewrite (step_data_open _ h p) by (done || prior_port_lookup Hp).
    match goal with |- context [foldl _ ?st (sp_listeners p)] =>
      edestruct (on_data_prior nt chunk (sp_listeners p) st prs []
                   (eq_sym (app_nil_r prs)) Hlis Hgood)
      as (prs' & clears & Heq & Hlen & Hgood' & Ha & Hw);
      [by apply Forall_singleton|]
    end.
    rewrite Heq.
    replace (set_trace _ _) with
      (waiting_state path n (P0 ++ replicate k (failed_port path sid))
         prs' ss nt t0 t (tr ++ clears) sid)
      by (unfold waiting_state; cbn; by rewrite app_nil_r).
    constructor; try done; try congruence; count_log.
  - rewrite (step_data_open _ h p) by (done || prior_port_lookup Hp).
    match goal with |- context [foldl _ ?st (sp_listeners p)] =>
      edestruct (on_data_prior tid chunk (sp_listeners p) st prs _
                   eq_refl Hlis Hgood)
      as (prs' & clears & Heq & Hlen & Hgood' & Ha & Hw);
      [by apply Forall_singleton|]
    end.
    rewrite Heq.
    replace (set_trace _ _) with
      (probing_state path n lt (P0 ++ replicate k (failed_port path sid))
         prs' ss tid t0 t (tr ++ clears) sid data)
      by (unfold probing_state; cbn; by rewrite Hlen).
    constructor; try done; try congruence; count_log.
  - rewrite (step_data_open _ h p) by (done || prior_port_lookup Hp).
    match goal with |- context [foldl _ ?st (sp_listeners p)] =>
      edestruct (on_data_prior tid chunk (sp_listeners p) st prs _
                   eq_refl Hlis Hgood)
      as (prs' & clears & Heq & Hlen & Hgood' & Ha & Hw); [constructor|]
    end.
    rewrite Heq.
    replace (set_trace _ _) with
      (resolved_state path n lt (P0 ++ replicate k (failed_port path sid))
         prs' ss tid t (tr ++ clears) sid data)
      by (unfold resolved_state; cbn; by rewrite Hlen).
    constructor; try done; try congruence; count_log.
  - rewrite (step_data_open _ h p) by (done || prior_port_lookup Hp).
    match goal with |- context [foldl _ ?st (sp_listeners p)] =>
      edestruct (on_data_prior tid chunk (sp_listeners p) st prs _
                   eq_refl Hlis Hgood)
      as (prs' & clears & Heq & Hlen & Hgood' & Ha & Hw); [constructor|]
    end.
    rewrite Heq.
    replace (set_trace _ _) with
      (timed_out_state path n lt (P0 ++ replicate k (failed_port path sid))
         prs' ss tid t (tr ++ clears) sid data e)
      by (unfold timed_out_state; cbn; by rewrite Hlen).
    constructor; try done; try congruence; count_log.
  - rewrite (step_data_open _ h p) by (done || prior_port_lookup Hp).
    match goal with |- context [foldl _ ?st (sp_listeners p)] =>
      edestruct (on_data_prior nt chunk (sp_listeners p) st prs []
                   (eq_sym (app_nil_r prs)) Hlis Hgood)
      as (prs' & clears & Heq & Hlen & Hgood' & Ha & Hw); [constructor|]
    end.
    rewrite Heq.
    replace (set_trace _ _) with
      (refused_state path n lt (P0 ++ replicate k (failed_port path sid))
         prs' ss nt t (tr ++ clears) sid e)
      by (unfold refused_state; cbn; by rewrite app_nil_r).
    constructor; try done; try congruence; count_log.
Qed.


Lemma scan_open_done_other (P0 : list SerialPortObj) k f last h err s :
  no_opening P0 ->
  sp_status f = NotOpen ->
  ports s = (P0 ++ replicate k f) ++ [last] ->
  (h = length (P0 ++ replicate k f) -> sp_status last <> Opening) ->
  step (OpenDone h err) s = s.
Proof.
  intros HP0 Hf Hports Hlast. apply open_done_noop. intros p Hp.
  rewrite Hports in Hp.
  destruct (lookup_scan_ports _ _ _ _ _ _ Hp) as [Hp0 | [-> | [Hh ->]]].
  - exact (proj1 (Forall_lookup _ _) HP0 _ _ Hp0).
  - by rewrite Hf.
  - by apply Hlast.
Qed.

Lemma scan_data_other path sid a0 w0 P0 k0 k last h chunk s :
  listeners_below k0 P0 ->
  ports s = (P0 ++ replicate k (failed_port path sid)) ++ [last] ->
  (h = length (P0 ++ replicate k (failed_port path sid)) ->
   sp_status last <> IsOpen) ->
  scan_session path sid a0 w0 P0 k0 s ->
  scan_session path sid a0 w0 P0 k0 (step (Data h chunk) s).
Proof.
  intros Hlb Hports Hlast Hs.
  destruct (ports s !! h) as [p|] eqn:Hp.
  - pose proof Hp as Hp'. rewrite Hports in Hp'.
    destruct (lookup_scan_ports _ _ _ _ _ _ Hp') as [Hp0 | [-> | [Hh ->]]].
    + destruct (sp_status p) eqn:Hst.
      * rewrite data_noop; [done|]. intros p' Hp''. congruence.
      * by eapply scan_prior_data.
      * rewrite data_noop; [done|]. intros p' Hp''. congruence.
    + rewrite data_noop; [done|]. intros p' Hp''.
      rewrite Hp in Hp''. by injection Hp'' as <-.
    + rewrite data_noop; [done|]. intros p' Hp''.
      rewrite Hp in Hp''. injection Hp'' as <-. by apply Hlast.
  - rewrite data_noop; [done|]. intros p' Hp''. congruence.
Qed.

Ltac scan_case :=
  constructor; try done;
  try (eapply good_probes_weaken; [|eassumption]; lia);
  try count_log.

Lemma scan_step path sid a0 w0 P0 k0 ev s :
  no_opening P0 ->
  listeners_below k0 P0 ->
  host_event ev ->
  scan_session path sid a0 w0 P0 k0 s ->
  scan_session path sid a0 w0 P0 k0 (step ev s).
Proof.
  intros HP0 Hlb Hev Hs.
  destruct ev as [q| |h err|h chunk|dt]; try done.
  - (* an open callback *)
    destruct Hs as [n lt k prs ss nt t tr Hn Hsid Hk0 Hgood Hatt Hwr
                   |n k prs ss nt t0 t tr Hn Hsid Hk0 Hgood Hatt Hwr
                   |n lt k prs ss tid t0 t tr data Hn Hsid Hk0 Hgood Hatt Hwr
                   |n lt k prs ss tid t tr data Hsid Hk0 Hgood Hinc Hatt Hwr
                   |n lt k prs ss tid t tr data e Hsid Hk0 Hgood Hatt Hwr
                   |n lt k prs ss nt t tr e Hsid Hk0 Hgood Hatt Hwr].
    + destruct (decide (h = length (P0 ++ replicate k (failed_port path sid))))
        as [->|Hne].
      * destruct err as [msg|].
        -- destruct (includes msg "Cannot lock port") eqn:Hmsg.
           ++ destruct (decide (S n < MAX_OPEN_ATTEMPTS)) as [Hlt|Hge].
              ** rewrite open_done_lock by done. scan_case.
              ** rewrite open_done_lock_last by (done || lia). scan_case.
           ++ rewrite open_done_error by done. scan_case.
        -- rewrite open_done_ok. scan_case.
      * erewrite (scan_open_done_other P0 k (failed_port path sid) _ h err _ HP0
                    eq_refl); [by constructor|reflexivity|done].
    + erewrite (scan_open_done_other P0 k (failed_port path sid) _ h err _ HP0
                    eq_refl); [by constructor|reflexivity|done].
    + erewrite (scan_open_done_other P0 k (failed_port path sid) _ h err _ HP0
                    eq_refl); [by constructor|reflexivity|done].
    + erewrite (scan_open_done_other P0 k (failed_port path sid) _ h err _ HP0
                    eq_refl); [by constructor|reflexivity|done].
    + erewrite (scan_open_done_other P0 k (failed_port path sid) _ h err _ HP0
                    eq_refl); [by constructor|reflexivity|done].
    + erewrite (scan_open_done_other P0 k (failed_port path sid) _ h err _ HP0
                    eq_refl); [by constructor|reflexivity|done].
  - (* a chunk *)
    destruct Hs as [n lt k prs ss nt t tr Hn Hsid Hk0 Hgood Hatt Hwr
                   |n k prs ss nt t0 t tr Hn Hsid Hk0 Hgood Hatt Hwr
                   |n lt k prs ss tid t0 t tr data Hn Hsid Hk0 Hgood Hatt Hwr
                   |n lt k prs ss tid t tr data Hsid Hk0 Hgood Hinc Hatt Hwr
                   |n lt k prs ss tid t tr data e Hsid Hk0 Hgood Hatt Hwr
                   |n lt k prs ss nt t tr e Hsid Hk0 Hgood Hatt Hwr].
    + eapply scan_data_other; [done|reflexivity|done|by constructor].
    + eapply scan_data_other; [done|reflexivity|done|by constructor].
    + destruct (decide (h = length (P0 ++ replicate k (failed_port path sid))))
        as [->|Hne].
      * destruct (list_includes (data ++ chunk) (probeRsp param)) eqn:Hinc.
        -- rewrite data_match by done. scan_case.
        -- rewrite data_no_match by done. by constructor.
      * eapply scan_data_other; [done|reflexivity|done|by constructor].
    + destruct (decide (h = length (P0 ++ replicate k (failed_port path sid))))
        as [->|Hne].
      * rewrite data_after_match by done. scan_case.
        by apply list_includes_app.
      * eapply scan_data_other; [done|reflexivity|done|by constructor].
    + eapply scan_data_other; [done|reflexivity|done|by constructor].
    + eapply scan_data_other; [done|reflexivity|done|by constructor].
  - (* time passes *)
    destruct Hs as [n lt k prs ss nt t tr Hn Hsid Hk0 Hgood Hatt Hwr
                   |n k prs ss nt t0 t tr Hn Hsid Hk0 Hgood Hatt Hwr
                   |n lt k prs ss tid t0 t tr data Hn Hsid Hk0 Hgood Hatt Hwr
                   |n lt k prs ss tid t tr data Hsid Hk0 Hgood Hinc Hatt Hwr
                   |n lt k prs ss tid t tr data e Hsid Hk0 Hgood Hatt Hwr
                   |n lt k prs ss nt t tr e Hsid Hk0 Hgood Hatt Hwr].
    + rewrite advance_opening. by constructor.
    + destruct (decide (t + dt < t0 + 1000)) as [Hlt|Hge].
      * rewrite advance_waiting_idle by done. by constructor.
      * rewrite advance_waiting_fire by lia.
        rewrite <- app_assoc, replicate_snoc. scan_case.
    + destruct (decide (t + dt < t0 + 500)) as [Hlt|Hge].
      * rewrite advance_probing_idle by done. by constructor.
      * rewrite deadline_fires by (done || lia). scan_case.
    + rewrite advance_resolved. by constructor.
    + change (step (Advance dt)
                (timed_out_state path n lt
                   (P0 ++ replicate k (failed_port path sid)) prs ss tid t tr
                   sid data e))
        with (timed_out_state path n lt
                (P0 ++ replicate k (failed_port path sid)) prs ss tid (t + dt)
                tr sid data e).
      by constructor.
    + change (step (Advance dt)
                (refused_state path n lt
                   (P0 ++ replicate k (failed_port path sid)) prs ss nt t tr
                   sid e))
        with (refused_state path n lt
                (P0 ++ replicate k (failed_port path sid)) prs ss nt (t + dt)
                tr sid e).
      by constructor.
Qed.


Lemma scan_run path sid a0 w0 P0 k0 evs s :
  no_opening P0 ->
  listeners_below k0 P0 ->
  Forall host_event evs ->
  scan_session path sid a0 w0 P0 k0 s ->
  scan_session path sid a0 w0 P0 k0 (run evs s).
Proof.
  intros HP0 Hlb. revert s.
  induction evs as [|ev evs IH]; intros s Hevs Hs; [done|].
  apply Forall_cons in Hevs as [Hev Hevs]. rewrite run_cons.
  by apply IH, scan_step.
Qed.

Lemma scan_init path s0 :
  quiet s0 ->
  scan_session path (length (sessions s0)) (attempts (trace s0))
    (writes (trace s0)) (ports s0) (length (probes s0))
    (snd (open path s0)).
Proof.
  intros (Ht & _ & _ & Hgood). rewrite open_shape by done. cbn [snd].
  pose proof (scan_opening path (length (sessions s0)) (attempts (trace s0))
                (writes (trace s0)) (ports s0) (length (probes s0))
                0 (lockTimer s0) 0 (probes s0) (sessions s0 ++ [Pending])
                (nextTimer s0) (now s0)
                (trace s0 ++
                 [(now s0, ENewSerialPort (length (ports s0 ++ replicate 0
                              (failed_port path (length (sessions s0)))))
                             (Some path) (baudRate param))])) as H.
  cbn [replicate] in H. rewrite app_nil_r in H. apply H; try done.
  - unfold MAX_OPEN_ATTEMPTS. lia.
  - apply lookup_snoc.
  - count_log.
  - count_log.
Qed.

Lemma scan_await path sid a0 w0 P0 k0 (evs : list event) :
  forall s r s2 evs2,
  no_opening P0 ->
  listeners_below k0 P0 ->
  Forall host_event evs ->
  scan_session path sid a0 w0 P0 k0 s ->
  await sid evs s = (Some r, s2, evs2) ->
  scan_session path sid a0 w0 P0 k0 s2 /\
  settled sid s2 = Some r /\
  Forall host_event evs2.
Proof.
  induction evs as [|ev evs IH]; intros s r s2 evs2 HP0 Hlb Hevs Hs Ha;
    cbn [await] in Ha.
  - destruct (settled sid s) as [r'|] eqn:Hr; [|done].
    by injection Ha as <- <- <-.
  - destruct (settled sid s) as [r'|] eqn:Hr.
    + by injection Ha as <- <- <-.
    + apply Forall_cons in Hevs as [Hev Hevs].
      eapply IH; [done | done | done | | exact Ha]. by apply scan_step.
Qed.

Lemma listeners_below_weaken k k' P :
  k <= k' -> listeners_below k P -> listeners_below k' P.
Proof.
  intros Hk Hl. eapply Forall_impl; [exact Hl|]. cbn. intros p Hp.
  eapply Forall_impl; [exact Hp|]. cbn. intros. lia.
Qed.

Lemma no_opening_scan_ports P0 k path sid last :
  no_opening P0 -> sp_status last <> Opening ->
  no_opening ((P0 ++ replicate k (failed_port path sid)) ++ [last]).
Proof.
  intros HP0 Hlast. apply Forall_app. split; [apply Forall_app; split|].
  - done.
  - by apply Forall_replicate.
  - by apply Forall_singleton.
Qed.

Lemma listeners_scan_ports P0 k0 k k' path sid last :
  listeners_below k0 P0 -> k0 <= k' ->
  Forall (fun pid => pid < k') (sp_listeners last) ->
  listeners_below k' ((P0 ++ replicate k (failed_port path sid)) ++ [last]).
Proof.
  intros HP0 Hk Hlast. apply Forall_app. split; [apply Forall_app; split|].
  - by eapply listeners_below_weaken.
  - apply Forall_replicate. constructor.
  - by apply Forall_singleton.
Qed.

(** What holds when the promise of a session of a scan is settled. *)
Lemma scan_settled path sid a0 w0 P0 k0 s r :
  no_opening P0 ->
  listeners_below k0 P0 ->
  scan_session path sid a0 w0 P0 k0 s ->
  settled sid s = Some r ->
  quiet s /\
  (exists F, ports s = P0 ++ F) /\
  attempts (trace s) <= a0 + MAX_OPEN_ATTEMPTS /\
  writes (trace s) <= S w0 /\
  (forall v, r = inl v ->
     exists h, v = Some h /\ length P0 <= h /\ isOpen h s = true).
Proof.
  intros HP0 Hlb Hs Hr.
  destruct Hs as [n lt k prs ss nt t tr Hn Hsid Hk0 Hgood Hatt Hwr
                 |n k prs ss nt t0 t tr Hn Hsid Hk0 Hgood Hatt Hwr
                 |n lt k prs ss tid t0 t tr data Hn Hsid Hk0 Hgood Hatt Hwr
                 |n lt k prs ss tid t tr data Hsid Hk0 Hgood Hinc Hatt Hwr
                 |n lt k prs ss tid t tr data e Hsid Hk0 Hgood Hatt Hwr
                 |n lt k prs ss nt t tr e Hsid Hk0 Hgood Hatt Hwr].
  - by rewrite settled_opening in Hr.
  - unfold settled in Hr. cbn in Hr. by rewrite Hsid in Hr.
  - by rewrite settled_probing in Hr.
  - rewrite settled_resolved in Hr by done. injection Hr as <-.
    split; [|split; [|split; [|split]]].
    + split; [done|]. split; [|split]; cbn.
      * by apply no_opening_scan_ports.
      * apply listeners_scan_ports with (k0 := k0); [done| |].
        -- rewrite length_app. cbn. lia.
        -- apply Forall_singleton. rewrite length_app. cbn. lia.
      * apply Forall_app. split.
        -- eapply good_probes_weaken; [|exact Hgood]. lia.
        -- apply Forall_singleton. cbn. split; [done | lia].
    + eexists. cbn. rewrite <- !app_assoc. reflexivity.
    + done.
    + cbn [trace resolved_state]. lia.
    + intros v [= <-]. eexists. split; [done|]. split.
      * rewrite length_app. lia.
      * unfold isOpen. cbn. by rewrite lookup_snoc.
  - split; [|split; [|split; [|split]]].
    + split; [done|]. split; [|split]; cbn.
      * by apply no_opening_scan_ports.
      * apply listeners_scan_ports with (k0 := k0); [done| |].
        -- rewrite length_app. cbn. lia.
        -- apply Forall_singleton. rewrite length_app. cbn. lia.
      * apply Forall_app. split.
        -- eapply good_probes_weaken; [|exact Hgood]. lia.
        -- apply Forall_singleton. cbn. split; [done | lia].
    + eexists. cbn. rewrite <- !app_assoc. reflexivity.
    + done.
    + cbn [trace timed_out_state]. lia.
    + intros v ->. by rewrite settled_timed_out in Hr.
  - split; [|split; [|split; [|split]]].
    + split; [done|]. split; [|split]; cbn.
      * by apply no_opening_scan_ports.
      * apply listeners_scan_ports with (k0 := k0); [done|lia|constructor].
      * done.
    + eexists. cbn. rewrite <- !app_assoc. reflexivity.
    + done.
    + cbn [trace refused_state]. lia.
    + intros v ->. by rewrite settled_refused in Hr.
Qed.


Lemma isOpen_prefix s s' F h :
  ports s' = ports s ++ F -> isOpen h s = true -> isOpen h s' = true.
Proof.
  intros Hp. unfold isOpen. rewrite Hp.
  destruct (ports s !! h) as [p|] eqn:Hl; [|done].
  by rewrite (lookup_app_l_Some _ _ _ _ Hl).
Qed.

Lemma isOpen_lt s h : isOpen h s = true -> h < length (ports s).
Proof.
  unfold isOpen. destruct (ports s !! h) as [p|] eqn:Hl; [|done].
  intros _. by eapply lookup_lt_Some.
Qed.

Lemma probeAll_loop_scan (todo : list Port) :
  forall results opened evs s results' opened' s' rest,
  quiet s ->
  Forall host_event evs ->
  Forall (result_open s) results ->
  NoDup (map pr_serialPort results) ->
  probeAll_loop todo results opened evs s = ScanDone results' opened' s' rest ->
  quiet s' /\
  Forall (result_open s') results' /\
  NoDup (map pr_serialPort results') /\
  attempts (trace s') + MAX_OPEN_ATTEMPTS * length opened
  <= attempts (trace s) + MAX_OPEN_ATTEMPTS * length opened' /\
  writes (trace s') + length opened <= writes (trace s) + length opened'.
Proof.
  induction todo as [|port todo IH];
    intros results opened evs s results' opened' s' rest
           Hq Hevs Hres Hnd Hscan.
  - cbn in Hscan. injection Hscan as <- <- <- <-.
    split; [done|]. split; [done|]. split; [done|]. split; lia.
  - rewrite probeAll_loop_cons in Hscan.
    destruct (filterThrows port); [done|].
    destruct (anyGroupMatches (normalizePort port) (filter param));
      [|by eapply IH].
    pose proof (scan_init (comName (normalizePort port)) s Hq) as Hinit.
    destruct Hq as (Ht & Hno & Hlb & Hgood).
    destruct (open (comName (normalizePort port)) s) as [sid s1] eqn:Hopen.
    assert (Hsid : sid = length (sessions s)) by (by injection Hopen as <- _).
    subst sid. cbn [snd] in Hinit.
    destruct (await (length (sessions s)) evs s1) as [[[r|] s2] evs2] eqn:Ha;
      [|done].
    destruct (scan_await _ _ _ _ _ _ evs s1 r s2 evs2 Hno Hlb Hevs Hinit Ha)
      as (Hs2 & Hr & Hevs2).
    destruct (scan_settled _ _ _ _ _ _ s2 r Hno Hlb Hs2 Hr)
      as (Hq2 & [F HF] & Hatt & Hwr & Hval).
    assert (Hres2 : Forall (result_open s2) results).
    { eapply Forall_impl; [exact Hres|]. intros x (h & Hx & Ho).
      exists h. split; [done|]. by eapply isOpen_prefix. }
    destruct r as [v|e].
    + destruct (Hval v eq_refl) as (h & -> & Hh & Hopen_h).
      eapply IH in Hscan; [| done | done | | ].
      * destruct Hscan as (Hq' & Hres' & Hnd' & Hatt' & Hwr').
        rewrite length_app in Hatt', Hwr'. cbn [length] in Hatt', Hwr'.
        split; [done|]. split; [done|]. split; [done|].
        unfold MAX_OPEN_ATTEMPTS in *. split; lia.
      * apply Forall_app. split; [done|]. apply Forall_singleton.
        exists h. by split.
      * rewrite map_app. cbn [map]. apply NoDup_app. split; [done|].
        split; [|apply NoDup_singleton].
        intros x Hx Hin. apply list_elem_of_singleton in Hin. subst x.
        apply list_elem_of_fmap in Hx as (x & Hx & Hin).
        destruct (proj1 (Forall_forall _ _) Hres x Hin) as (h' & Hh' & Ho').
        cbn in Hx. rewrite Hh' in Hx. injection Hx as ->.
        apply isOpen_lt in Ho'. lia.
    + eapply IH in Hscan; [| done | done | done | done].
      destruct Hscan as (Hq' & Hres' & Hnd' & Hatt' & Hwr').
      rewrite length_app in Hatt', Hwr'. cbn [length] in Hatt', Hwr'.
      split; [done|]. split; [done|]. split; [done|].
      unfold MAX_OPEN_ATTEMPTS in *. split; lia.
Qed.

(** X19: a scan on an instance at rest, under any behaviour of the host
    (any answers, delays and bytes, also bytes on port objects found
    earlier in the scan): when [probeAll] returns, every element of its
    array holds a port object that is open, these port objects are all
    different, no timer is pending, at most five port objects were made
    and at most one probe command was written for each candidate
    opened. *)
Theorem probeAll_returns_open_ports (listed : list Port) (evs : list event)
    (s : State) results opened s' rest :
  quiet s ->
  Forall host_event evs ->
  probeAll (inr listed) evs s = ScanDone results opened s' rest ->
  Forall (result_open s') results /\
  NoDup (map pr_serialPort results) /\
  timers s' = [] /\
  attempts (trace s') <= attempts (trace s) + MAX_OPEN_ATTEMPTS * length opened /\
  writes (trace s') <= writes (trace s) + length opened.
Proof.
  intros Hq Hevs Hscan. cbn [probeAll] in Hscan.
  eapply probeAll_loop_scan in Hscan; [| done | done | constructor | constructor].
  destruct Hscan as ((Ht & _) & Hres & Hnd & Hatt & Hwr).
  cbn [length] in Hatt, Hwr.
  split; [done|]. split; [done|]. split; [done|]. split; lia.
Qed.


Lemma outcome_ports_sublist s' (opened : list (Port * nat)) :
  sublist (map pr_port (omap (outcome_of s') opened)) (map fst opened).
Proof.
  induction opened as [|o opened IH]; [constructor|].
  change (omap (outcome_of s') (o :: opened))
    with (match outcome_of s' o with
          | Some r => r :: omap (outcome_of s') opened
          | None => omap (outcome_of s') opened
          end).
  unfold outcome_of at 1. destruct (settled (snd o) s') as [[v|e]|]; cbn.
  - by apply sublist_skip.
  - by apply sublist_cons.
  - by apply sublist_cons.
Qed.

(** X20: the descriptors in the array of [probeAll] are, in the order of
    the listing, a subsequence of its candidates: nothing is reordered,
    repeated or added, and each is the rewritten descriptor. *)
Theorem probeAll_results_in_listing_order (listed : list Port)
    (evs : list event) (s : State) results opened s' rest :
  probeAll (inr listed) evs s = ScanDone results opened s' rest ->
  sublist (map pr_port results) (candidates listed) /\
  length results <= length (candidates listed).
Proof.
  intros Hscan. cbn [probeAll] in Hscan.
  apply probeAll_loop_spec in Hscan as [_ [new [-> [Hmap [-> _]]]]].
  cbn [app]. rewrite <- Hmap.
  pose proof (outcome_ports_sublist s' new) as Hsub.
  split; [exact Hsub|].
  apply sublist_length in Hsub. rewrite !length_map in Hsub.
  by rewrite length_map.
Qed.


(** ** A scan from end to end *)

Lemma open_fst path s : fst (open path s) = length (sessions s).
Proof. reflexivity. Qed.

Lemma run_after_open path evs s :
  run evs (snd (open path s)) = run (CallOpen path :: evs) s.
Proof. reflexivity. Qed.

(** One candidate: its promise is pending until the last event of the
    answer and settled by it; no timer is left. *)
Lemma session_answer path s a :
  timers s = [] ->
  answer_ok a ->
  exists evs1 ev,
    answer_script (length (ports s)) a = evs1 ++ [ev] /\
    settled (length (sessions s)) (run evs1 (snd (open path s))) = None /\
    settled (length (sessions s)) (run (evs1 ++ [ev]) (snd (open path s)))
    = Some (answer_outcome path (length (ports s)) a) /\
    timers (run (evs1 ++ [ev]) (snd (open path s))) = [] /\
    length (ports (run (evs1 ++ [ev]) (snd (open path s))))
    = length (ports s) + S (length (answer_fails a)).
Proof.
  intros Ht (Hlock & HK & Ha).
  assert (Hsid : (sessions s ++ [Pending]) !! length (sessions s)
                 = Some Pending) by apply lookup_snoc.
  destruct a as [fails lat chunks dt chunk | fails lat msg | fails lat chunks d];
    cbn [answer_fails answer_script answer_outcome] in *.
  - destruct Ha as (Hel & Hno & Hyes).
    exists (lock_script (length (ports s)) fails ++
            [Advance lat; OpenDone (length (ports s) + length fails) None] ++
            chunk_script (length (ports s) + length fails) chunks ++
            [Advance dt]),
           (Data (length (ports s) + length fails) chunk).
    split; [by rewrite <- !app_assoc|].
    assert (Hs1 :
      run (lock_script (length (ports s)) fails ++
           [Advance lat; OpenDone (length (ports s) + length fails) None] ++
           chunk_script (length (ports s) + length fails) chunks ++
           [Advance dt]) (snd (open path s)) =
      probing_state path (length fails)
        (lock_lockTimer (lockTimer s) (nextTimer s) fails)
        (lock_ports path (length (sessions s)) (ports s) fails)
        (probes s) (sessions s ++ [Pending])
        (nextTimer s + length fails)
        (lock_time (now s) fails + lat)
        (lock_time (now s) fails + lat + elapsed chunks + dt)
        (trace s ++
         ((now s, ENewSerialPort (length (ports s)) (Some path)
                    (baudRate param))
          :: lock_trace path (length (ports s)) (nextTimer s) (now s) fails) ++
         [(lock_time (now s) fails + lat,
           ESetTimeout (nextTimer s + length fails) 500);
          (lock_time (now s) fails + lat,
           EWrite (length (ports s) + length fails) (probeCmd param))])
        (length (sessions s)) (received chunks)).
    { rewrite app_assoc, run_app, run_app, run_after_open.
      rewrite session_probe_start by done.
      rewrite <- (lock_ports_length path (length (sessions s))).
      rewrite probe_chunks_silent by (done || lia).
      rewrite run_cons, run_nil, advance_probing_idle by lia.
      reflexivity. }
    split; [rewrite Hs1; by apply settled_probing|].
    rewrite run_app, Hs1, run_cons, run_nil.
    rewrite <- (lock_ports_length path (length (sessions s))).
    rewrite data_match by done.
    split; [by apply settled_resolved|]. split; [done|].
    cbn [ports resolved_state]. rewrite length_app, lock_ports_length.
    cbn [length]. lia.
  - exists (lock_script (length (ports s)) fails ++ [Advance lat]),
           (OpenDone (length (ports s) + length fails) (Some msg)).
    split; [by rewrite <- app_assoc|].
    split.
    + rewrite run_after_open, app_comm_cons, run_app.
      rewrite session_lock_phase by done.
      rewrite run_cons, run_nil, advance_opening.
      by apply settled_opening.
    + rewrite run_after_open, <- app_assoc. cbn [app].
      rewrite session_refusal;
        [|done|done|done|by destruct (includes msg _); [apply Ha|]].
      split; [by apply settled_refused|]. split; [done|].
      cbn [ports refused_state]. rewrite length_app, lock_ports_length.
      cbn [length]. lia.
  - destruct Ha as (Hel & Hd & Hno).
    exists (lock_script (length (ports s)) fails ++
            [Advance lat; OpenDone (length (ports s) + length fails) None] ++
            chunk_script (length (ports s) + length fails) chunks),
           (Advance d).
    split; [by rewrite <- !app_assoc|].
    assert (Hs1 :
      run (lock_script (length (ports s)) fails ++
           [Advance lat; OpenDone (length (ports s) + length fails) None] ++
           chunk_script (length (ports s) + length fails) chunks)
        (snd (open path s)) =
      probing_state path (length fails)
        (lock_lockTimer (lockTimer s) (nextTimer s) fails)
        (lock_ports path (length (sessions s)) (ports s) fails)
        (probes s) (sessions s ++ [Pending])
        (nextTimer s + length fails)
        (lock_time (now s) fails + lat)
        (lock_time (now s) fails + lat + elapsed chunks)
        (trace s ++
         ((now s, ENewSerialPort (length (ports s)) (Some path)
                    (baudRate param))
          :: lock_trace path (length (ports s)) (nextTimer s) (now s) fails) ++
         [(lock_time (now s) fails + lat,
           ESetTimeout (nextTimer s + length fails) 500);
          (lock_time (now s) fails + lat,
           EWrite (length (ports s) + length fails) (probeCmd param))])
        (length (sessions s)) (received chunks)).
    { rewrite app_assoc, run_app, run_after_open.
      rewrite session_probe_start by done.
      rewrite <- (lock_ports_length path (length (sessions s))).
      by rewrite probe_chunks_silent by (done || lia). }
    split; [rewrite Hs1; by apply settled_probing|].
    rewrite run_app, Hs1, run_cons, run_nil.
    rewrite deadline_fires by (done || lia).
    split; [by apply settled_timed_out|]. split; [done|].
    cbn [ports timed_out_state]. rewrite length_app, lock_ports_length.
    cbn [length]. lia.
Qed.

Lemma probeAll_loop_answers (listed : list Port) :
  forall answers results opened rest s,
  timers s = [] ->
  Forall (fun port => filterThrows port = None) listed ->
  Forall answer_ok answers ->
  length answers = length (candidates listed) ->
  exists new s',
    probeAll_loop listed results opened
      (scan_script (length (ports s)) answers ++ rest) s
    = ScanDone
        (results ++ expected (length (ports s)) (candidates listed) answers)
        (opened ++ new) s' rest /\
    map fst new = candidates listed /\
    timers s' = [].
Proof.
  induction listed as [|port listed IH];
    intros answers results opened rest s Ht Hok Hans Hlen.
  - destruct answers; [|done]. exists [], s. cbn. by rewrite !app_nil_r.
  - apply Forall_cons in Hok as [Hport Hok].
    rewrite probeAll_loop_cons, Hport.
    destruct (anyGroupMatches (normalizePort port) (filter param)) eqn:Hm.
    + rewrite candidates_cons_match in * by done.
      destruct answers as [|a answers]; [done|].
      apply Forall_cons in Hans as [Ha Hans].
      destruct (session_answer (comName (normalizePort port)) s a Ht Ha)
        as (evs1 & ev & Hscript & Hpend & Hset & Ht2 & Hp2).
      cbn [scan_script expected]. rewrite Hscript, <- !app_assoc.
      cbn [app].
      destruct (open (comName (normalizePort port)) s) as [sid s1] eqn:Hopen.
      assert (Hsid : sid = length (sessions s))
        by (by rewrite <- (open_fst (comName (normalizePort port)) s), Hopen).
      subst sid. cbn [snd] in *.
      rewrite (await_settles _ _ _ _ _ _ Hpend Hset).
      rewrite <- Hp2.
      set (s2 := run (evs1 ++ [ev]) s1) in *.
      cbn [length] in Hlen.
      destruct a as [fails lat chunks dt chunk|fails lat msg|fails lat chunks d];
        cbn [answer_outcome answer_fails] in *.
      * edestruct (IH answers
                     (results ++ [mkResult (normalizePort port)
                                    (Some (length (ports s) + length fails))])
                     (opened ++ [(normalizePort port, length (sessions s))])
                     rest s2) as (new & s' & Hscan & Hmap & Ht');
          [done | done | done | lia |].
        exists ((normalizePort port, length (sessions s)) :: new), s'.
        rewrite Hscan, <- !app_assoc. cbn [app map fst].
        by rewrite Hmap.
      * edestruct (IH answers results
                     (opened ++ [(normalizePort port, length (sessions s))])
                     rest s2) as (new & s' & Hscan & Hmap & Ht');
          [done | done | done | lia |].
        exists ((normalizePort port, length (sessions s)) :: new), s'.
        rewrite Hscan, <- !app_assoc. cbn [app map fst].
        by rewrite Hmap.
      * edestruct (IH answers results
                     (opened ++ [(normalizePort port, length (sessions s))])
                     rest s2) as (new & s' & Hscan & Hmap & Ht');
          [done | done | done | lia |].
        exists ((normalizePort port, length (sessions s)) :: new), s'.
        rewrite Hscan, <- !app_assoc. cbn [app map fst].
        by rewrite Hmap.
    + rewrite candidates_cons_skip in * by done. by apply IH.
Qed.

(** X25: a scan from end to end.  On an instance with no timer pending
    and with a filter that throws on no listed descriptor, let the host
    answer each candidate in turn in one of three ways, after fewer than
    five lock failures each: the port opens and the response arrives in
    time, however it is cut into chunks; or the last attempt fails with an
    error; or the port opens and the response does not arrive within
    500 ms.  Then [probeAll] returns; its array holds exactly one element
    for each candidate that responded, in the order of the listing, with
    the port object that opened; every candidate was opened; no timer is
    left; and the host events after the last answer are untouched. *)
Theorem probeAll_end_to_end (listed : list Port) (answers : list answer)
    (rest : list event) (s : State) :
  timers s = [] ->
  Forall (fun port => filterThrows port = None) listed ->
  Forall answer_ok answers ->
  length answers = length (candidates listed) ->
  exists opened s',
    probeAll (inr listed) (scan_script (length (ports s)) answers ++ rest) s
    = ScanDone (expected (length (ports s)) (candidates listed) answers)
        opened s' rest /\
    map fst opened = candidates listed /\
    timers s' = [].
Proof.
  intros Ht Hok Hans Hlen. cbn [probeAll].
  destruct (probeAll_loop_answers listed answers [] [] rest s Ht Hok Hans Hlen)
    as (new & s' & Hscan & Hmap & Ht').
  by exists new, s'.
Qed.

End SerialProber.

(** * The theorems at the sample data *)

Lemma ex_fails4_lock : Forall is_lock_error ex_fails4.
Proof. repeat constructor. Qed.




Lemma probeAll_swallows_port_failures_witness :
  let evs := [OpenDone 0 None; Advance 500; OpenDone 1 None;
              Data 1 [x41; x42]] in
  let s1 := snd (open ex_spec "/dev/cu.usbABC" init) in
  probeAll ex_match ex_re_error ex_spec (inl (ErrObj "list failed")) evs init
  = ScanRejected (ErrObj "list failed") /\
  (exists l1 port l2,
     [ex_port1] = l1 ++ port :: l2 /\
     filterThrows ex_match ex_re_error ex_spec_bad port
     = Some (ErrObj "Invalid regular expression: /(/: Unterminated group")) /\
  probeAll_loop ex_match ex_re_error ex_spec [ex_port2; ex_port3] [] [] evs
    init
  = probeAll_loop ex_match ex_re_error ex_spec [ex_port3] []
      [(normalizePort ex_port2, 0)] [OpenDone 1 None; Data 1 [x41; x42]]
      (run ex_spec [OpenDone 0 None; Advance 500] s1) /\
  (exists opened s' rest,
     probeAll ex_match ex_re_error ex_spec
       (inr [ex_port1; ex_port2; ex_port3]) evs init
     = ScanDone [mkResult ex_port3 (Some 1)] opened s' rest /\
     map fst opened = [normalizePort ex_port2; ex_port3] /\
     Forall (fun o => is_Some (settled (snd o) s')) opened /\
     [mkResult ex_port3 (Some 1)] = omap (outcome_of s') opened) /\
  (exists settled_ones last s',
     probeAll ex_match ex_re_error ex_spec (inr [ex_port2])
       [OpenDone 0 None] init
     = ScanHung (settled_ones ++ [last]) s' /\
     settled (snd last) s' = None).
Proof.
  cbn zeta.
  destruct (probeAll_swallows_port_failures ex_match ex_re_error ex_spec
              (inr [ex_port1; ex_port2; ex_port3])
              [OpenDone 0 None; Advance 500; OpenDone 1 None;
               Data 1 [x41; x42]] init) as (_ & _ & Hnext & Hdone & _).
  split; [|split; [|split; [|split]]].
  - apply (probeAll_swallows_port_failures ex_match ex_re_error ex_spec
             (inl (ErrObj "list failed"))). reflexivity.
  - destruct (probeAll_swallows_port_failures ex_match ex_re_error
                ex_spec_bad (inr [ex_port1]) [] init) as (_ & Hrej & _).
    destruct (Hrej [ex_port1]
                (ErrObj "Invalid regular expression: /(/: Unterminated group")
                eq_refl ltac:(vm_compute; reflexivity))
      as (l1 & port & l2 & Hl & Hthrow & _).
    by exists l1, port, l2.
  - exact (Hnext ex_port2 [ex_port3] [] [] [OpenDone 0 None] (Advance 500)
             [OpenDone 1 None; Data 1 [x41; x42]]
             (inr (ErrStr
                "SerialProber: timeout: zigbee dongle not detected on /dev/cu.usbABC"))
             ltac:(vm_compute; reflexivity) ltac:(vm_compute; reflexivity)
             ltac:(vm_compute; reflexivity) ltac:(vm_compute; reflexivity)).
  - do 3 eexists.
    assert (Hscan :
      probeAll ex_match ex_re_error ex_spec
        (inr [ex_port1; ex_port2; ex_port3])
        [OpenDone 0 None; Advance 500; OpenDone 1 None; Data 1 [x41; x42]]
        init
      = ScanDone [mkResult ex_port3 (Some 1)]
          [(normalizePort ex_port2, 0); (ex_port3, 1)]
          (run ex_spec
             [CallOpen "/dev/cu.usbABC"; OpenDone 0 None; Advance 500;
              CallOpen "/dev/ttyUSB1"; OpenDone 1 None; Data 1 [x41; x42]]
             init)
          []) by (vm_compute; reflexivity).
    split; [exact Hscan|].
    destruct (Hdone _ _ _ _ _ eq_refl Hscan) as [Hmap [Hall Hres]].
    split; [exact Hmap|]. split; [exact Hall | exact Hres].
  - destruct (probeAll_swallows_port_failures ex_match ex_re_error ex_spec
                (inr [ex_port2]) [OpenDone 0 None] init)
      as (_ & _ & _ & _ & Hhung).
    assert (Hscan :
      probeAll ex_match ex_re_error ex_spec (inr [ex_port2])
        [OpenDone 0 None] init
      = ScanHung [(normalizePort ex_port2, 0)]
          (run ex_spec [CallOpen "/dev/cu.usbABC"; OpenDone 0 None] init))
      by (vm_compute; reflexivity).
    destruct (Hhung _ _ _ eq_refl Hscan) as (ok & last & Hop & Hlast & _).
    exists ok, last. eexists. split; [|exact Hlast].
    rewrite Hscan. by rewrite Hop.
Defined.

(** C3 fails where the filter throws.  The listing succeeds; the first
    descriptor is opened and answers the probe; on the second descriptor
    the filter reaches a pattern string that is no regular expression, and
    [probeAll] is rejected with the exception, although
    [SerialPort.list()] did not fail.  The same with a single descriptor
    and a host that does nothing. *)
Lemma probeAll_rejected_without_list_failure :
  probeAll ex_match ex_re_error ex_spec_bad (inr [ex_port3; ex_port1])
    [OpenDone 0 None; Data 0 [x41; x42]] init
  = ScanRejected
      (ErrObj "Invalid regular expression: /(/: Unterminated group") /\
  probeAll ex_match ex_re_error ex_spec_bad (inr [ex_port1]) [] init
  = ScanRejected
      (ErrObj "Invalid regular expression: /(/: Unterminated group").
Proof. split; vm_compute; reflexivity. Qed.



Lemma path_normalized_before_filter_and_open_witness :
  normalizePath "/dev/tty.usbABC" = "/dev/cu.usbABC" /\
  normalizePath "/dev/ttyUSB0" = "/dev/ttyUSB0" /\
  trace (snd (open ex_spec (normalizePath (comName ex_port2)) init)) =
    [(0, ENewSerialPort 0 (Some "/dev/cu.usbABC") 115200)] /\
  probeAll_loop ex_match ex_re_error ex_spec [ex_port2] [] [] [] init =
    ScanHung [(normalizePort ex_port2, 0)]
      (snd (open ex_spec "/dev/cu.usbABC" init)).
Proof.
  destruct (path_normalized_before_filter_and_open ex_match ex_re_error ex_spec ex_port2)
    as [Htty [Hother [_ [Hopen Hloop]]]].
  split; [exact (Htty "ABC")|].
  split; [apply Hother; reflexivity|].
  split; [exact (Hopen init)|].
  rewrite Hloop by (vm_compute; reflexivity). reflexivity.
Defined.

Lemma close_idempotent_witness :
  let s := snd (open ex_spec "/dev/ttyUSB0" init) in
  let s' := run ex_spec [CallOpen "/dev/ttyUSB0"; OpenDone 0 None] init in
  close init = init /\
  (serialPort s = Some 0 /\ isOpen 0 s = false /\ close s = s) /\
  (isOpen 0 s' = true /\ close (close s') = close s') /\
  (isOpen 0 (close s') = false /\
   trace (close s') = trace s' ++ [(0, EClosePort 0)] /\
   serialPort (close s') = None).
Proof.
  cbn zeta. split; [|split; [|split]].
  - apply (proj1 (proj2 (close_idempotent init))). reflexivity.
  - split; [reflexivity|]. split; [reflexivity|].
    apply (proj1 (proj2 (proj2 (close_idempotent
                                  (snd (open ex_spec "/dev/ttyUSB0" init)))))
             0);
      reflexivity.
  - split; [reflexivity|].
    apply (proj1 (close_idempotent
                    (run ex_spec [CallOpen "/dev/ttyUSB0"; OpenDone 0 None]
                       init))).
  - destruct (proj2 (proj2 (proj2 (close_idempotent
                (run ex_spec [CallOpen "/dev/ttyUSB0"; OpenDone 0 None]
                   init)))) 0 eq_refl eq_refl)
      as (Hclosed & Htrace & Hsp & _).
    split; [exact Hclosed|]. split; [exact Htrace | exact Hsp].
Defined.


(** * The further properties at the sample data *)


Lemma comName_filter_sees_rewritten_path_witness :
  filter ex_spec_any = [[("comName", "cu.usb")]] /\
  fst (serialPortMatchesFilter ex_match ex_spec_any ex_port2)
  = ex_match "/dev/cu.usbABC" "cu.usb".
Proof.
  split; [reflexivity|].
  exact (comName_filter_sees_rewritten_path ex_match ex_spec_any ex_port2
           "cu.usb" eq_refl).
Defined.


Lemma lock_error_by_substring_witness :
  let p := "/dev/ttyUSB0" in
  timers (step ex_spec
            (OpenDone 0 (Some ("Error: " +:+ "Cannot lock port" +:+ " (busy)")))
            (opening_state ex_spec p 0 None [] [] [Pending] 0 0 [] 0))
  = [mkTimer 0 1000 (LockRetry 0)].
Proof.
  cbn zeta.
  exact (f_equal timers
           (lock_error_by_substring ex_spec "/dev/ttyUSB0" 0 None [] []
              [Pending] 0 0 [] 0 "Error: " " (busy)"
              ltac:(vm_compute; lia))).
Defined.

Lemma listener_survives_success_witness :
  let p := "/dev/ttyUSB0" in
  list_includes [x41; x42] (probeRsp ex_spec) = true /\
  run ex_spec (chunk_script 0 [(5, [x43]); (7, [x44])])
    (resolved_state ex_spec p 0 None [] [] [Pending] 0 10 [] 0 [x41; x42])
  = resolved_state ex_spec p 0 None [] [] [Pending] 0 22
      [(15, EClearTimeout 0); (22, EClearTimeout 0)] 0
      [x41; x42; x43; x44].
Proof.
  cbn zeta. split; [reflexivity|].
  exact (listener_survives_success ex_spec [(5, [x43]); (7, [x44])]
           "/dev/ttyUSB0" 0 None [] [] [Pending] 0 10 [] 0 [x41; x42]
           eq_refl).
Defined.

Lemma close_during_probe_witness :
  let p := "/dev/ttyUSB0" in
  let s1 := close (probing_state ex_spec p 0 None [] [] [Pending] 0 0 20 [] 0
                     [x41]) in
  isOpen 0 s1 = false /\
  settled 0 s1 = None /\
  settled 0 (step ex_spec (Advance 480) s1)
  = Some (inr (ErrStr
                 "SerialProber: timeout: zigbee dongle not detected on null")).
Proof.
  cbn zeta.
  destruct (close_during_probe ex_spec "/dev/ttyUSB0" 0 None [] [] [Pending]
              0 0 20 [] 0 [x41] 480 eq_refl ltac:(vm_compute; lia))
    as [Hclosed [Hpending Hlate]].
  split; [exact Hclosed|]. split; [exact Hpending|].
  exact (f_equal (settled 0) Hlate).
Defined.

Lemma open_while_retrying_witness :
  let p := "/dev/ttyUSB0" in
  let q := "/dev/ttyUSB1" in
  ports (run ex_spec [CallOpen q; Advance 1000]
           (waiting_state ex_spec p 1 [] [] [Pending] 0 0 0 [] 0))
  = [failed_port ex_spec p 0;
     mkSerialPort (Some q) 115200 Opening 1 [];
     mkSerialPort (Some q) 115200 Opening 0 []].
Proof.
  cbn zeta.
  exact (f_equal ports
           (open_while_retrying ex_spec "/dev/ttyUSB0" "/dev/ttyUSB1" 1 [] []
              [Pending] 0 0 0 [] 0 1000 ltac:(vm_compute; lia))).
Defined.

Lemma probeAll_waits_for_open_callback_witness :
  exists port sid s',
    probeAll ex_match ex_re_error ex_spec (inr [ex_port1; ex_port2])
      [Advance 100; Advance 5000] init
    = ScanHung [(port, sid)] s' /\
    head (candidates ex_match ex_spec [ex_port1; ex_port2]) = Some port /\
    settled sid s' = None.
Proof.
  apply (probeAll_waits_for_open_callback ex_match ex_re_error ex_spec
           [ex_port1; ex_port2] [Advance 100; Advance 5000] init).
  - reflexivity.
  - repeat constructor.
  - repeat constructor.
  - vm_compute. discriminate.
Defined.

Lemma probeAll_only_candidates_matter_witness :
  Forall (fun port => filterThrows ex_match ex_re_error ex_spec port = None)
    [ex_port1; ex_port2; ex_port3] /\
  probeAll ex_match ex_re_error ex_spec (inr [ex_port1; ex_port2; ex_port3])
    [OpenDone 0 None] init
  = probeAll ex_match ex_re_error ex_spec
      (inr (candidates ex_match ex_spec [ex_port1; ex_port2; ex_port3]))
      [OpenDone 0 None] init.
Proof.
  assert (Hok : Forall (fun port =>
                          filterThrows ex_match ex_re_error ex_spec port = None)
                  [ex_port1; ex_port2; ex_port3])
    by (repeat constructor).
  split; [exact Hok|].
  exact (proj2 (probeAll_only_candidates_matter ex_match ex_re_error ex_spec
                  [ex_port1; ex_port2; ex_port3] [OpenDone 0 None] init) Hok).
Defined.

Lemma empty_response_matches_first_chunk_witness :
  let p := "/dev/ttyUSB0" in
  probeRsp ex_spec_any = [] /\
  settled 0 (step ex_spec_any (Data 0 [])
               (probing_state ex_spec_any p 0 None [] [] [Pending] 0 0 0 [] 0 []))
  = Some (inl (Some 0)).
Proof.
  cbn zeta. split; [reflexivity|].
  exact (f_equal (settled 0)
           (empty_response_matches_first_chunk ex_spec_any "/dev/ttyUSB0" 0
              None [] [] [Pending] 0 0 0 [] 0 [] [] eq_refl eq_refl)).
Defined.

Lemma lock_retry_at_delay_witness :
  let p := "/dev/ttyUSB0" in
  let w := waiting_state ex_spec p 1 [] [] [Pending] 0 0 0 [] 0 in
  attempts (trace (step ex_spec (Advance 999) w)) = 0 /\
  trace (run ex_spec [Advance 999; Advance 1] w)
  = [(1000, ENewSerialPort 1 (Some p) 115200)].
Proof.
  cbn zeta.
  destruct (lock_retry_at_delay ex_spec "/dev/ttyUSB0" 1 [] [] [Pending]
              0 0 [] 0 999 1 ltac:(lia) ltac:(lia)) as [Hidle Hfire].
  split.
  - exact (f_equal (fun s => attempts (trace s)) Hidle).
  - exact (f_equal trace Hfire).
Defined.

Lemma host_requests_wellformed_witness :
  let evs := [CallOpen "/dev/ttyUSB0"; OpenDone 0 None; CallClose;
              CallOpen "/dev/ttyUSB1"; Advance 600] in
  log_ok ex_spec (trace init) /\
  log_ok ex_spec (trace (run ex_spec evs init)) /\
  exists new, trace (run ex_spec evs init) = trace init ++ new.
Proof.
  cbn zeta. split; [apply Forall_nil_2|].
  apply (host_requests_wellformed ex_spec). apply Forall_nil_2.
Defined.


Lemma earlier_port_stays_open_witness :
  let s := run ex_spec [CallOpen "/dev/ttyUSB0"; OpenDone 0 None;
                        Data 0 [x41; x42]; CallOpen "/dev/ttyUSB1"] init in
  let evs := [OpenDone 1 None; Advance 500; CallClose;
              CallOpen "/dev/ttyUSB2"; OpenDone 2 (Some ex_denied)] in
  (isOpen 0 s = true /\ serialPort s = Some 1) /\
  isOpen 0 (run ex_spec evs s) = true /\
  serialPort (run ex_spec evs s) <> Some 0.
Proof.
  cbn zeta. split; [split; reflexivity|].
  apply (earlier_port_stays_open ex_spec).
  - reflexivity.
  - discriminate.
Defined.

Lemma quiet_init : quiet init.
Proof.
  split; [reflexivity|]. split; [constructor|]. split; constructor.
Qed.

Lemma probeAll_returns_open_ports_witness :
  let evs := [OpenDone 0 None; Data 0 [x41; x42]; OpenDone 1 None;
              Data 0 [x43]; Data 1 [x41; x42]] in
  let s' := run ex_spec
              [CallOpen "/dev/cu.usbABC"; OpenDone 0 None; Data 0 [x41; x42];
               CallOpen "/dev/ttyUSB1"; OpenDone 1 None; Data 0 [x43];
               Data 1 [x41; x42]] init in
  let results := [mkResult (normalizePort ex_port2) (Some 0);
                  mkResult ex_port3 (Some 1)] in
  let opened := [(normalizePort ex_port2, 0); (ex_port3, 1)] in
  probeAll ex_match ex_re_error ex_spec (inr [ex_port1; ex_port2; ex_port3]) evs init
  = ScanDone results opened s' [] /\
  Forall (result_open s') results /\
  NoDup (map pr_serialPort results) /\
  timers s' = [] /\
  attempts (trace s') <= attempts (trace init) + MAX_OPEN_ATTEMPTS * 2 /\
  writes (trace s') <= writes (trace init) + 2.
Proof.
  cbn zeta.
  assert (Hscan :
    probeAll ex_match ex_re_error ex_spec (inr [ex_port1; ex_port2; ex_port3])
      [OpenDone 0 None; Data 0 [x41; x42]; OpenDone 1 None; Data 0 [x43];
       Data 1 [x41; x42]] init
    = ScanDone
        [mkResult (normalizePort ex_port2) (Some 0); mkResult ex_port3 (Some 1)]
        [(normalizePort ex_port2, 0); (ex_port3, 1)]
        (run ex_spec
           [CallOpen "/dev/cu.usbABC"; OpenDone 0 None; Data 0 [x41; x42];
            CallOpen "/dev/ttyUSB1"; OpenDone 1 None; Data 0 [x43];
            Data 1 [x41; x42]] init)
        []) by (vm_compute; reflexivity).
  split; [exact Hscan|].
  exact (probeAll_returns_open_ports ex_match ex_re_error ex_spec
           [ex_port1; ex_port2; ex_port3]
           [OpenDone 0 None; Data 0 [x41; x42]; OpenDone 1 None; Data 0 [x43];
            Data 1 [x41; x42]] init
           [mkResult (normalizePort ex_port2) (Some 0);
            mkResult ex_port3 (Some 1)]
           [(normalizePort ex_port2, 0); (ex_port3, 1)]
           (run ex_spec
              [CallOpen "/dev/cu.usbABC"; OpenDone 0 None; Data 0 [x41; x42];
               CallOpen "/dev/ttyUSB1"; OpenDone 1 None; Data 0 [x43];
               Data 1 [x41; x42]] init)
           [] quiet_init ltac:(repeat constructor) Hscan).
Defined.

Lemma probeAll_results_in_listing_order_witness :
  let evs := [OpenDone 0 None; Advance 500; OpenDone 1 None;
              Data 1 [x41; x42]] in
  sublist (map pr_port [mkResult ex_port3 (Some 1)])
    (candidates ex_match ex_spec [ex_port1; ex_port2; ex_port3]) /\
  length [mkResult ex_port3 (Some 1)]
  <= length (candidates ex_match ex_spec [ex_port1; ex_port2; ex_port3]).
Proof.
  cbn zeta.
  assert (Hscan :
    probeAll ex_match ex_re_error ex_spec (inr [ex_port1; ex_port2; ex_port3])
      [OpenDone 0 None; Advance 500; OpenDone 1 None; Data 1 [x41; x42]]
      init
    = ScanDone [mkResult ex_port3 (Some 1)]
        [(normalizePort ex_port2, 0); (ex_port3, 1)]
        (run ex_spec
           [CallOpen "/dev/cu.usbABC"; OpenDone 0 None; Advance 500;
            CallOpen "/dev/ttyUSB1"; OpenDone 1 None; Data 1 [x41; x42]]
           init)
        []) by (vm_compute; reflexivity).
  exact (probeAll_results_in_listing_order ex_match ex_re_error ex_spec
           [ex_port1; ex_port2; ex_port3]
           [OpenDone 0 None; Advance 500; OpenDone 1 None; Data 1 [x41; x42]]
           init _ _ _ _ Hscan).
Defined.

Lemma filter_throws_exactly_witness :
  filterThrows ex_match ex_re_error ex_spec_bad ex_port1
  = Some (ErrObj "Invalid regular expression: /(/: Unterminated group") /\
  filterThrows ex_match ex_re_error ex_spec_bad ex_port3 = None /\
  filterThrows ex_match ex_re_error ex_spec ex_port1 = None.
Proof.
  split; [|split].
  - apply (proj1 (filter_throws_exactly ex_match ex_re_error ex_spec_bad
                    ex_port1 _)).
    exists [[("product", "CP210")]], [], "vendor", "(", [], [], "Other".
    split; [reflexivity|]. split; [|split; [constructor|split; reflexivity]].
    apply Forall_singleton. split; reflexivity.
  - apply (proj2 (proj2 (filter_throws_exactly ex_match ex_re_error
                           ex_spec_bad ex_port3 ""))
             [] [("product", "CP210")] [[("vendor", "(")]]).
    + reflexivity.
    + constructor.
    + apply Forall_singleton. exists "CP2104".
      split; [reflexivity|]. split; [reflexivity | vm_compute; reflexivity].
  - apply (proj1 (proj2 (filter_throws_exactly ex_match ex_re_error ex_spec
                           ex_port1 ""))).
    intros g key re [<- | [<- | []]] [[= <- <-] | []]; reflexivity.
Defined.

Lemma probeAll_end_to_end_witness :
  let listed := [ex_port1; ex_port2; ex_port3; ex_port1] in
  let answers := [Refuses ex_fails4 1 ex_lock;
                  Silent [] 0 [(10, [x42])] 490;
                  Responds [(5, ex_lock)] 2 [(10, [x42])] 20 [x41];
                  Refuses [] 0 ex_denied] in
  exists opened s',
    probeAll ex_match ex_re_error ex_spec_all (inr listed)
      (scan_script 0 answers ++ [Advance 7]) init
    = ScanDone [mkResult ex_port3 (Some 7)] opened s' [Advance 7] /\
    map fst opened = [ex_port1; normalizePort ex_port2; ex_port3; ex_port1] /\
    timers s' = [].
Proof.
  cbn zeta.
  apply (probeAll_end_to_end ex_match ex_re_error ex_spec_all
           [ex_port1; ex_port2; ex_port3; ex_port1]
           [Refuses ex_fails4 1 ex_lock;
            Silent [] 0 [(10, [x42])] 490;
            Responds [(5, ex_lock)] 2 [(10, [x42])] 20 [x41];
            Refuses [] 0 ex_denied]
           [Advance 7] init).
  - reflexivity.
  - repeat constructor.
  - repeat apply Forall_cons_2; [| | | |constructor].
    + split; [exact ex_fails4_lock|]. split; [vm_compute; lia|].
      reflexivity.
    + split; [constructor|]. split; [vm_compute; lia|].
      split; [vm_compute; lia|]. split; [vm_compute; lia | reflexivity].
    + split; [repeat constructor|]. split; [vm_compute; lia|].
      split; [vm_compute; lia|]. split; reflexivity.
    + split; [constructor|]. split; [vm_compute; lia|].
      intros H. vm_compute in H. discriminate H.
  - reflexivity.
Defined.
